(** * Table select filter and text field: a shallow embedding

    The development follows
    [packages/components/src/components/table/components/table-filter/components/table-select-filter.tsx]
    (the option list of the table select filter and its form handlers)
    and the text field component (its validity flags).

    Layout: JavaScript numbers ([Number]), values and the built-ins the
    component calls ([JS]), the host's sort ([SortEngine]) and the
    locale's string comparison ([Collator]), the component
    ([sanitizeRowValues], [TableSelectFilter_options], [onSubmit],
    [onReset]) with the form library it configures, the derivation over
    values of any kind ([Any]) and the text field flags ([TextField]);
    then the lemmas on numbers, arrays, lists and the sort, and the
    theorems on the component.

    The theorems hold for every collation and every engine; the
    examples run in the code-unit collation and on the reference
    engine. *)

From Stdlib Require Import ZArith List String Ascii Bool Lia.
From Stdlib Require Import Sorted Permutation DecimalString SpecFloat.
From Stdlib Require Import OrdersEx RelationClasses.
From Stdlib Require DecimalPos DecimalN.
Import ListNotations.

Open Scope Z_scope.
Open Scope string_scope.

(** ** Numbers

    A JavaScript Number is an IEEE 754 binary64 value.  The carrier is the
    standard library's [spec_float] at precision 53 and maximal exponent
    1024; subtraction is its correctly rounded [SFsub]. *)
Module Number.

Definition prec : Z := 53.
Definition emax : Z := 1024.

Definition number : Type := spec_float.

(** The doubles proper: canonical mantissa and exponent in range. *)
Definition is_double (x : number) : bool := valid_binary prec emax x.

Definition NaN : number := S754_nan.
Definition Infinity : number := S754_infinity false.

(** An integer literal, rounded to the nearest double. *)
Definition of_Z (z : Z) : number := binary_normalize prec emax z 0 false.

Definition of_nat (n : nat) : number := of_Z (Z.of_nat n).

(** [a - b]. *)
Definition sub (a b : number) : number := SFsub prec emax a b.

(** [a === b] on numbers: NaN differs from itself, the two zeros agree. *)
Definition strict_eq (a b : number) : bool := SFeqb a b.

Definition is_nan (x : number) : bool :=
  match x with S754_nan => true | _ => false end.

Definition is_zero (x : number) : bool :=
  match x with S754_zero _ => true | _ => false end.

(** The sign of a number as a three-way result; NaN and the zeros give
    [Eq]. *)
Definition sgn (x : number) : comparison :=
  match x with
  | S754_zero _ | S754_nan => Eq
  | S754_infinity s | S754_finite s _ _ => if s then Lt else Gt
  end.

(** *** Exact order

    Every finite double is an integer multiple of [2 ^ emin]; [ulps]
    is that integer, and the order of the doubles is the order of these
    integers, with the infinities at both ends. *)
Inductive ext : Type := NegInf | Fin (z : Z) | PosInf.

Definition ulps (s : bool) (m : positive) (e : Z) : Z :=
  cond_Zopp s (Zpos m * 2 ^ (e - emin prec emax)).

Definition key (x : number) : option ext :=
  match x with
  | S754_nan => None
  | S754_zero _ => Some (Fin 0)
  | S754_infinity s => Some (if s then NegInf else PosInf)
  | S754_finite s m e => Some (Fin (ulps s m e))
  end.

Definition ext_compare (a b : ext) : comparison :=
  match a, b with
  | NegInf, NegInf => Eq
  | NegInf, _ => Lt
  | _, NegInf => Gt
  | PosInf, PosInf => Eq
  | PosInf, _ => Gt
  | _, PosInf => Lt
  | Fin x, Fin y => Z.compare x y
  end.

(** Comparison by value; [None] when an operand is NaN. *)
Definition compare (a b : number) : option comparison :=
  match key a, key b with
  | Some x, Some y => Some (ext_compare x y)
  | _, _ => None
  end.

Definition le (a b : number) : Prop :=
  compare a b = Some Lt \/ compare a b = Some Eq.

(** *** Number::toString, radix 10

    The digits are the shortest decimal that reads back as the same
    double, the nearest one when several have that length.  All
    comparisons are exact, on integers. *)

(** [a * 2^e] against [b * 10^p]. *)
Definition cmp_scaled (a e b p : Z) : comparison :=
  Z.compare (a * 2 ^ Z.max e 0 * 10 ^ Z.max (- p) 0)
            (b * 10 ^ Z.max p 0 * 2 ^ Z.max (- e) 0).

(** Does the decimal [s * 10^p] round to the double [m * 2^e]?  The
    bounds are the midpoints to the neighbouring doubles, in units of
    [2^(e-2)]; they belong to the interval when [m] is even. *)
Definition reads_back (m : positive) (e s p : Z) : bool :=
  let lo :=
    if Pos.eqb m (Pos.iter xO xH 52) && Z.ltb (emin prec emax) e
    then 4 * Zpos m - 1 else 4 * Zpos m - 2 in
  let hi := 4 * Zpos m + 2 in
  let closed := Z.even (Zpos m) in
  let below := cmp_scaled lo (e - 2) s p in
  let above := cmp_scaled hi (e - 2) s p in
  match below with Lt => true | Eq => closed | Gt => false end
  && match above with Gt => true | Eq => closed | Lt => false end.

(** The [q] with [10^q <= m * 2^e < 10^(q+1)]. *)
Definition floor_log10 (m : positive) (e : Z) : Z :=
  let est := (Zpos (digits2_pos m) + e - 1) * 30103 / 100000 in
  let ge q := match cmp_scaled (Zpos m) e 1 q with Lt => false | _ => true end in
  if ge (est + 1) then est + 1 else if ge est then est else est - 1.

Fixpoint strip_zeros (fuel : nat) (s p : Z) : Z * Z :=
  match fuel with
  | O => (s, p)
  | S fuel' =>
      if Z.eqb (s mod 10) 0 && negb (Z.eqb s 0)
      then strip_zeros fuel' (s / 10) (p + 1) else (s, p)
  end.

(** The best decimal with [k] digits, if one reads back. *)
Definition candidate (m : positive) (e q : Z) (k : Z) : option (Z * Z) :=
  let p := q - k + 1 in
  let N := Zpos m * 2 ^ Z.max e 0 * 10 ^ Z.max (- p) 0 in
  let D := 2 ^ Z.max (- e) 0 * 10 ^ Z.max p 0 in
  let fl := N / D in
  let ce := if Z.eqb (N mod D) 0 then fl else fl + 1 in
  let okf := reads_back m e fl p in
  let okc := reads_back m e ce p in
  let closer_up := Z.ltb (ce * D - N) (N - fl * D) in
  if okf && okc then Some (if closer_up then ce else fl, p)
  else if okf then Some (fl, p)
  else if okc then Some (ce, p)
  else None.

Fixpoint shortest (fuel : nat) (m : positive) (e q k : Z) : Z * Z :=
  match fuel with
  | O => (Zpos m * 2 ^ Z.max e 0 * 10 ^ Z.max (- (q - k + 1)) 0
          / (2 ^ Z.max (- e) 0 * 10 ^ Z.max (q - k + 1) 0), q - k + 1)
  | S fuel' =>
      match candidate m e q k with
      | Some sp => sp
      | None => shortest fuel' m e q (k + 1)
      end
  end.

Definition dec (z : Z) : string :=
  NilZero.string_of_uint (N.to_uint (Z.to_N z)).

Fixpoint zeros (n : nat) : string :=
  match n with O => "" | S n' => String "0" (zeros n') end.

Definition take (n : Z) (s : string) : string := substring 0 (Z.to_nat n) s.
Definition drop (n : Z) (s : string) : string :=
  substring (Z.to_nat n) (String.length s - Z.to_nat n) s.

(** The text of the positive double [m * 2^e]. *)
Definition positive_toString (m : positive) (e : Z) : string :=
  let q := floor_log10 m e in
  let '(s0, p0) := shortest 17 m e q 1 in
  let '(s, p) := strip_zeros 400 s0 p0 in
  let ds := dec s in
  let k := Z.of_nat (String.length ds) in
  let n := p + k in
  if Z.leb k n && Z.leb n 21 then ds ++ zeros (Z.to_nat (n - k))
  else if Z.ltb 0 n && Z.leb n 21 then take n ds ++ "." ++ drop n ds
  else if Z.ltb (-6) n && Z.leb n 0 then "0." ++ zeros (Z.to_nat (- n)) ++ ds
  else
    let ex := (if Z.leb 0 (n - 1) then "+" else "-") ++ dec (Z.abs (n - 1)) in
    if Z.eqb k 1 then ds ++ "e" ++ ex
    else take 1 ds ++ "." ++ drop 1 ds ++ "e" ++ ex.

Definition toString (x : number) : string :=
  match x with
  | S754_nan => "NaN"
  | S754_zero _ => "0"
  | S754_infinity s => if s then "-Infinity" else "Infinity"
  | S754_finite s m e =>
      (if s then "-" else "") ++ positive_toString m e
  end.

End Number.

Import Number.

(** [before x y l]: some [x] of [l] has a [y] to its right. *)
Inductive before {A : Type} (x y : A) : list A -> Prop :=
| before_here l : In y l -> before x y (x :: l)
| before_later a l : before x y l -> before x y (a :: l).

(** ** Values and built-ins

    Raw values are the scalars a cell or an option list holds, of the
    types the data model names: undefined, null, booleans, numbers and
    strings.  The other kinds of value the language has are added in
    [Any]. *)
Module JS.

Inductive value : Type :=
| VUndefined
| VNull
| VBoolean (b : bool)
| VNumber (x : number)
| VString (s : string).

(** [Boolean(v)]. *)
Definition ToBoolean (v : value) : bool :=
  match v with
  | VUndefined | VNull => false
  | VBoolean b => b
  | VNumber x => negb (is_zero x || is_nan x)
  | VString s => negb (String.eqb s "")
  end.

(** [typeof v]. *)
Definition typeof (v : value) : string :=
  match v with
  | VUndefined => "undefined"
  | VNull => "object"
  | VBoolean _ => "boolean"
  | VNumber _ => "number"
  | VString _ => "string"
  end.

(** [a === b]. *)
Definition IsStrictlyEqual (a b : value) : bool :=
  match a, b with
  | VUndefined, VUndefined => true
  | VNull, VNull => true
  | VBoolean x, VBoolean y => Bool.eqb x y
  | VNumber x, VNumber y => Number.strict_eq x y
  | VString x, VString y => String.eqb x y
  | _, _ => false
  end.

(** [String(v)], also the conversion a template literal applies. *)
Definition ToString (v : value) : string :=
  match v with
  | VUndefined => "undefined"
  | VNull => "null"
  | VBoolean b => if b then "true" else "false"
  | VNumber x => Number.toString x
  | VString s => s
  end.

Section Arrays.
Context {A B : Type}.

(** [array.filter(callback)]: the callback sees the element, its index
    and the array; the result is a new array. *)
Fixpoint filter_from (callback : A -> nat -> list A -> bool)
         (array : list A) (index : nat) (rest : list A) : list A :=
  match rest with
  | [] => []
  | item :: rest' =>
      if callback item index array
      then item :: filter_from callback array (S index) rest'
      else filter_from callback array (S index) rest'
  end.

Definition Array_filter (callback : A -> nat -> list A -> bool)
           (array : list A) : list A :=
  filter_from callback array 0 array.

(** [array.map(callback)] with the index. *)
Fixpoint map_from (callback : A -> nat -> B) (index : nat)
         (rest : list A) : list B :=
  match rest with
  | [] => []
  | item :: rest' => callback item index :: map_from callback (S index) rest'
  end.

Definition Array_map (callback : A -> nat -> B) (array : list A) : list B :=
  map_from callback 0 array.
End Arrays.

(** [array.indexOf(item)]: the first index holding a strictly equal
    element, [-1] when there is none. *)
Fixpoint indexOf_from (index : nat) (rest : list value) (item : value) : Z :=
  match rest with
  | [] => -1
  | x :: rest' =>
      if IsStrictlyEqual x item then Z.of_nat index
      else indexOf_from (S index) rest' item
  end.

Definition Array_indexOf (array : list value) (item : value) : Z :=
  indexOf_from 0 array item.

(** *** [array.sort(comparefn)]

    SortCompare: undefined sorts last without a call to [comparefn];
    otherwise only the sign of the returned number counts, and NaN
    counts as zero. *)
Definition SortCompare (comparefn : value -> value -> number)
           (x y : value) : comparison :=
  match x, y with
  | VUndefined, VUndefined => Eq
  | VUndefined, _ => Gt
  | _, VUndefined => Lt
  | _, _ => sgn (comparefn x y)
  end.

(** [u] may stand left of [v]: the comparison does not ask for a swap. *)
Definition in_order (comparefn : value -> value -> number)
           (u v : value) : Prop :=
  SortCompare comparefn u v <> Gt.

(** *** The host's sort

    [Array.prototype.sort] belongs to the engine.  The language only
    says what every engine returns: a rearrangement of the array, and,
    when the comparison is consistent on the elements of the array, the
    stable sorted order.  For a comparison that is not consistent the
    order is the engine's choice.

    [consistent_on]: on the elements of [l] the comparison changes sign
    with the order of its arguments and "not greater" is transitive. *)
Definition consistent_on {A : Type} (cmp : A -> A -> comparison)
           (l : list A) : Prop :=
  (forall x y, In x l -> In y l -> cmp y x = CompOpp (cmp x y))
  /\ (forall x y z, In x l -> In y l -> In z l ->
         cmp x y <> Gt -> cmp y z <> Gt -> cmp x z <> Gt).

(** An engine: its sort, seen as a sort of any list by a three-way
    comparison, with what the language grants about it.  An engine
    reaches the elements through the comparison only
    ([sort_by_natural]). *)
Class SortEngine : Type := {
  sort_by : forall {A : Type}, (A -> A -> comparison) -> list A -> list A;
  sort_by_Permutation :
    forall (A : Type) (cmp : A -> A -> comparison) (l : list A),
      Permutation (sort_by cmp l) l;
  sort_by_sorted :
    forall (A : Type) (cmp : A -> A -> comparison) (l : list A),
      consistent_on cmp l ->
      StronglySorted (fun x y => cmp x y <> Gt) (sort_by cmp l);
  sort_by_stable :
    forall (A : Type) (cmp : A -> A -> comparison) (l : list A),
      consistent_on cmp l ->
      forall x y, before x y l -> cmp x y = Eq -> before x y (sort_by cmp l);
  sort_by_natural :
    forall (A B : Type) (f : A -> B)
           (cmpA : A -> A -> comparison) (cmpB : B -> B -> comparison)
           (l : list A),
      (forall x y, cmpB (f x) (f y) = cmpA x y) ->
      sort_by cmpB (map f l) = map f (sort_by cmpA l)
}.

(** [array.sort(comparefn)] on a fresh array. *)
Definition Array_sort {engine : SortEngine}
           (comparefn : value -> value -> number)
           (array : list value) : list value :=
  sort_by (SortCompare comparefn) array.

(** A reference engine, the in-place insertion sort: each element in
    turn moves left past the elements that compare greater.  [placed]
    is the sorted prefix, last element first. *)
Fixpoint insert {A : Type} (cmp : A -> A -> comparison) (element : A)
         (placed : list A) : list A :=
  match placed with
  | [] => [element]
  | tmp :: placed' =>
      match cmp tmp element with
      | Gt => tmp :: insert cmp element placed'
      | _ => element :: placed
      end
  end.

Definition insertionSort {A : Type} (cmp : A -> A -> comparison)
           (array : list A) : list A :=
  rev (fold_left (fun placed element => insert cmp element placed) array []).

End JS.
Import JS.

(** The second pass in the words of its description: keep a value unless
    one strictly equal to it was met before.  [seen] holds the values met
    so far. *)
Fixpoint firstOccurrences (seen rest : list value) : list value :=
  match rest with
  | [] => []
  | item :: rest' =>
      if existsb (fun p => IsStrictlyEqual p item) seen
      then firstOccurrences (seen ++ [item]) rest'
      else item :: firstOccurrences (seen ++ [item]) rest'
  end.

(** Numbers inside a value are doubles proper. *)
Definition well_formed (v : value) : bool :=
  match v with
  | VNumber x => is_double x
  | _ => true
  end.

Definition isNumber (v : value) : bool := String.eqb (typeof v) "number".
Definition isString (v : value) : bool := String.eqb (typeof v) "string".

(** [String.prototype.localeCompare] depends on the host's locale.  The
    language requires a consistent comparator that never returns NaN; the
    class records the integer it returns and the two laws used here. *)
Class Collator : Type := {
  localeCompare : string -> string -> Z;
  localeCompare_antisym :
    forall a b, Z.sgn (localeCompare b a) = - Z.sgn (localeCompare a b);
  localeCompare_trans :
    forall a b c,
      localeCompare a b <= 0 -> localeCompare b c <= 0 -> localeCompare a c <= 0
}.

(** ** The select filter *)
Section TableSelectFilter.
Context {collator : Collator} {engine : SortEngine}.

(** The comparator handed to [sort]. *)
Definition compareFn (a b : value) : number :=
  if String.eqb (typeof a) "number" && String.eqb (typeof b) "number" then
    match a, b with
    | VNumber x, VNumber y => Number.sub x y
    | _, _ => of_Z 0
    end
  else if String.eqb (typeof a) "string" && String.eqb (typeof b) "string" then
    match a, b with
    | VString x, VString y => of_Z (localeCompare x y)
    | _, _ => of_Z 0
    end
  else of_Z 0.

(** The three passes of [sanitizeRowValues], in source order. *)
Definition dropFalsy (rowValues : list value) : list value :=
  Array_filter (fun item _ _ => ToBoolean item) rowValues.

Definition dropRepeats (rowValues : list value) : list value :=
  Array_filter
    (fun item index array => Z.eqb (Array_indexOf array item) (Z.of_nat index))
    rowValues.

Definition sanitizeRowValues (rowValues : option (list value))
  : option (list value) :=
  option_map (Array_sort compareFn)
    (option_map dropRepeats (option_map dropFalsy rowValues)).

(** The value [sanitizeRowValues] returns on an array. *)
Definition sanitized (raw : list value) : list value :=
  Array_sort compareFn (dropRepeats (dropFalsy raw)).

Record Option_ : Type := {
  id : string;
  label : string;
  value_ : string
}.

Record Row : Type := { getValue : string -> value }.

Record TableSelectColumnMeta : Type := {
  filterOptions : option (list value)
}.

Record ColumnDef : Type := {
  columnDef_id : value;
  filterFn : value;
  meta : option TableSelectColumnMeta
}.

Record Column : Type := { columnDef : option ColumnDef }.

(** [TChoiceGroupValue] is declared with the choice group, outside the
    files at hand.  The component reads a field's [length] and passes the
    field on; a field is nothing yet, one choice (a string) or several
    (an array of strings). *)
Inductive TChoiceGroupValue : Type :=
| FUndefined
| FNull
| FString (s : string)
| FArray (items : list string).

Record ContextValues : Type := {
  selectField : TChoiceGroupValue;
  multiSelectField : TChoiceGroupValue
}.

(** The filter context, the column and the rows are declared outside the
    files at hand; the records hold what the component reads from
    them. *)
Record TableFilterContext : Type := {
  column : option Column;
  rows : option (list (option Row));
  setOpen : bool;               (* is the callback there *)
  contextValues : option ContextValues
}.

(** [column?.columnDef]. *)
Definition column_columnDef (ctx : TableFilterContext) : option ColumnDef :=
  match column ctx with
  | Some c => columnDef c
  | None => None
  end.

(** [column?.columnDef?.id]. *)
Definition column_id (ctx : TableFilterContext) : value :=
  match column_columnDef ctx with
  | Some d => columnDef_id d
  | None => VUndefined
  end.

(** [column?.columnDef?.filterFn]. *)
Definition inputType (ctx : TableFilterContext) : value :=
  match column_columnDef ctx with
  | Some d => filterFn d
  | None => VUndefined
  end.

(** [meta?.filterOptions]. *)
Definition externalRowValues (ctx : TableFilterContext) : option (list value) :=
  match column_columnDef ctx with
  | Some d =>
      match meta d with
      | Some m => filterOptions m
      | None => None
      end
  | None => None
  end.

(** [i?.getValue?.(id)]. *)
Definition row_getValue (i : option Row) (columnId : string) : value :=
  match i with
  | Some r => getValue r columnId
  | None => VUndefined
  end.

Definition internalRowValues (ctx : TableFilterContext) : list value :=
  match rows ctx, column_id ctx with
  | Some rs, VString columnId =>
      if Nat.eqb (List.length rs) 0 then []
      else Array_map (fun i _ => row_getValue i columnId) rs
  | _, _ => []
  end.

(** [externalRowValues?.length ? ... : ...]. *)
Definition rowValues (ctx : TableFilterContext) : option (list value) :=
  match externalRowValues ctx with
  | Some ext =>
      if Nat.eqb (List.length ext) 0
      then sanitizeRowValues (Some (internalRowValues ctx))
      else sanitizeRowValues (Some ext)
  | None => sanitizeRowValues (Some (internalRowValues ctx))
  end.

(** The projection of one value, [columnId] being
    [column?.columnDef?.id]. *)
Definition toOption (columnId : value) (i : value) (index : nat) : Option_ :=
  {| id := ToString columnId ++ "-choice-" ++ ToString (VNumber (of_nat index));
     label := ToString i;
     value_ := ToString i |}.

(** [rowValues?.map(...) || []]. *)
Definition optionsOf (columnId : value) (rowValues : option (list value))
  : list Option_ :=
  match rowValues with
  | Some vs => Array_map (toOption columnId) vs
  | None => []
  end.

Definition TableSelectFilter_options (ctx : TableFilterContext) : list Option_ :=
  optionsOf (column_id ctx) (rowValues ctx).

(** The same context over other rows. *)
Definition with_rows (ctx : TableFilterContext)
           (rows' : option (list (option Row))) : TableFilterContext :=
  {| column := column ctx;
     rows := rows';
     setOpen := setOpen ctx;
     contextValues := contextValues ctx |}.

(** The derivation on a bare sequence of raw values. *)
Definition derive (columnId : value) (raw : list value) : list Option_ :=
  optionsOf columnId (sanitizeRowValues (Some raw)).

(** The derived value strings taken as raw values again. *)
Definition reinterpret (options : list Option_) : list value :=
  map (fun o => VString (value_ o)) options.

(** Ascending order of two values of one type; values of different
    types are not ordered against each other. *)
Definition ascending (u v : value) : Prop :=
  match u, v with
  | VNumber a, VNumber b => Number.le a b
  | VString a, VString b => localeCompare a b <= 0
  | _, _ => True
  end.

(** *** The form *)
Inductive FieldName : Type := selectFilter | multiSelectFilter.

Definition fieldName (ctx : TableFilterContext) : FieldName :=
  if IsStrictlyEqual (inputType ctx) (VString "select")
  then selectFilter else multiSelectFilter.

Record FormValues : Type := {
  values_inputType : value;
  values_selectFilter : TChoiceGroupValue;
  values_multiSelectFilter : TChoiceGroupValue
}.

Definition initialValues (ctx : TableFilterContext) : FormValues :=
  {| values_inputType := inputType ctx;
     values_selectFilter :=
       match contextValues ctx with
       | Some v => selectField v
       | None => FUndefined
       end;
     values_multiSelectFilter :=
       match contextValues ctx with
       | Some v => multiSelectField v
       | None => FUndefined
       end |}.

(** [values[fieldName]]. *)
Definition field (values : FormValues) (name : FieldName) : TChoiceGroupValue :=
  match name with
  | selectFilter => values_selectFilter values
  | multiSelectFilter => values_multiSelectFilter values
  end.

(** [v?.length] read as a condition. *)
Definition hasLength (v : TChoiceGroupValue) : bool :=
  match v with
  | FUndefined | FNull => false
  | FString s => negb (Nat.eqb (String.length s) 0)
  | FArray items => negb (Nat.eqb (List.length items) 0)
  end.

(** What a handler does to the outside. *)
Inductive Effect : Type :=
| SetFilterValue (v : TChoiceGroupValue)
| SetOpen (open : bool).

(** [column?.setFilterValue(v)]. *)
Definition column_setFilterValue (ctx : TableFilterContext)
           (v : TChoiceGroupValue) : list Effect :=
  match column ctx with
  | Some _ => [SetFilterValue v]
  | None => []
  end.

(** [setOpen?.(open)]. *)
Definition call_setOpen (ctx : TableFilterContext) (open : bool) : list Effect :=
  if setOpen ctx then [SetOpen open] else [].

Definition onSubmit (ctx : TableFilterContext) (values : FormValues) : list Effect :=
  column_setFilterValue ctx
    (if hasLength (field values (fieldName ctx))
     then field values (fieldName ctx) else FString "")
  ++ call_setOpen ctx false.

Definition onReset (ctx : TableFilterContext) : list Effect :=
  column_setFilterValue ctx (FString "") ++ call_setOpen ctx false.

(** [onSelectChange]: [setFieldValue(fieldName, item)]. *)
Definition onSelectChange (ctx : TableFilterContext) (values : FormValues)
           (item : TChoiceGroupValue) : FormValues :=
  match fieldName ctx with
  | selectFilter =>
      {| values_inputType := values_inputType values;
         values_selectFilter := item;
         values_multiSelectFilter := values_multiSelectFilter values |}
  | multiSelectFilter =>
      {| values_inputType := values_inputType values;
         values_selectFilter := values_selectFilter values;
         values_multiSelectFilter := item |}
  end.

(** *** The form library

    [useFormik] belongs to the form library.  The component hands it the
    initial values and two callbacks and wires [handleSubmit] to the
    form, [handleReset] to the clear button and [setFieldValue] to the
    choice group.  The library's part, as its documentation has it: a
    submit validates the values with the [validate] function and the
    [validationSchema] of the configuration, where there are any, and
    calls [onSubmit] only when no error is found; a reset calls
    [onReset] and puts the initial values back; [setFieldValue] stores
    a value and validates.  The component renders no field of the
    library, so no validator is registered per field. *)
Definition FormikErrors : Type := list (FieldName * string).

Record FormikConfig : Type := {
  config_initialValues : FormValues;
  config_validate : option (FormValues -> FormikErrors);
  config_validationSchema : option (FormValues -> FormikErrors);
  config_onSubmit : FormValues -> list Effect;
  config_onReset : option (FormValues -> list Effect)
}.

Record FormikState : Type := {
  state_values : FormValues;
  state_errors : FormikErrors
}.

Definition run_validator (validator : option (FormValues -> FormikErrors))
           (values : FormValues) : FormikErrors :=
  match validator with
  | Some validate => validate values
  | None => []
  end.

Definition formik_validateForm (config : FormikConfig) (values : FormValues)
  : FormikErrors :=
  (run_validator (config_validate config) values
   ++ run_validator (config_validationSchema config) values)%list.

Definition formik_handleSubmit (config : FormikConfig) (state : FormikState)
  : FormikState * list Effect :=
  let combinedErrors := formik_validateForm config (state_values state) in
  ({| state_values := state_values state; state_errors := combinedErrors |},
   match combinedErrors with
   | [] => config_onSubmit config (state_values state)
   | _ :: _ => []
   end).

Definition formik_handleReset (config : FormikConfig) (state : FormikState)
  : FormikState * list Effect :=
  ({| state_values := config_initialValues config; state_errors := [] |},
   match config_onReset config with
   | Some onReset => onReset (state_values state)
   | None => []
   end).

Definition formik_setFieldValue (config : FormikConfig) (state : FormikState)
           (set : FormValues -> FormValues) : FormikState * list Effect :=
  let values := set (state_values state) in
  ({| state_values := values;
      state_errors := formik_validateForm config values |}, []).

(** The configuration the component hands to [useFormik]: no
    [validate], no [validationSchema]. *)
Definition useFormik_config (ctx : TableFilterContext) : FormikConfig :=
  {| config_initialValues := initialValues ctx;
     config_validate := None;
     config_validationSchema := None;
     config_onSubmit := onSubmit ctx;
     config_onReset := Some (fun _ => onReset ctx) |}.

(** What the rendered form reacts to: the form's submit, the clear
    button, and a choice in the choice group. *)
Inductive FormEvent : Type :=
| Submit
| Reset
| Change (item : TChoiceGroupValue).

Definition handle (ctx : TableFilterContext) (state : FormikState)
           (ev : FormEvent) : FormikState * list Effect :=
  match ev with
  | Submit => formik_handleSubmit (useFormik_config ctx) state
  | Reset => formik_handleReset (useFormik_config ctx) state
  | Change item =>
      formik_setFieldValue (useFormik_config ctx) state
        (fun values => onSelectChange ctx values item)
  end.

End TableSelectFilter.

(** ** Row values of any kind

    [sanitizeRowValues] takes [unknown[]].  Beside the five kinds of
    [JS.value] the language has big integers, symbols, objects and
    functions.  Converting an object to a string runs the object's own
    code, which may throw or return no primitive; the heap records for
    each object what the conversion comes to.  The module repeats the
    derivation over these values, with steps that can throw returning a
    completion. *)
Module Any.

Inductive value : Type :=
| Primitive (v : JS.value)
| BigInt (z : Z)
| Symbol (key : nat) (description : option string)
| Object (ref : nat)
| Function (ref : nat).

(** The string an object or function at [ref] converts to, [None] when
    the conversion throws. *)
Record Heap : Type := { toPrimitive_string : nat -> option string }.

Inductive completion (A : Type) : Type :=
| Normal (a : A)
| Throw.
Arguments Normal {A} a.
Arguments Throw {A}.

Definition bind {A B : Type} (m : completion A) (k : A -> completion B)
  : completion B :=
  match m with
  | Normal a => k a
  | Throw => Throw
  end.

Notation "'do' x <- m ; k" := (bind m (fun x => k))
  (at level 10, x name, m at level 100, k at level 200).

(** [Boolean(v)]. *)
Definition ToBoolean (v : value) : bool :=
  match v with
  | Primitive p => JS.ToBoolean p
  | BigInt z => negb (Z.eqb z 0)
  | Symbol _ _ | Object _ | Function _ => true
  end.

(** [typeof v]. *)
Definition typeof (v : value) : string :=
  match v with
  | Primitive p => JS.typeof p
  | BigInt _ => "bigint"
  | Symbol _ _ => "symbol"
  | Object _ => "object"
  | Function _ => "function"
  end.

(** [a === b]: symbols, objects and functions by identity. *)
Definition IsStrictlyEqual (a b : value) : bool :=
  match a, b with
  | Primitive x, Primitive y => JS.IsStrictlyEqual x y
  | BigInt x, BigInt y => Z.eqb x y
  | Symbol x _, Symbol y _ => Nat.eqb x y
  | Object x, Object y => Nat.eqb x y
  | Function x, Function y => Nat.eqb x y
  | _, _ => false
  end.

Fixpoint indexOf_from (index : nat) (rest : list value) (item : value) : Z :=
  match rest with
  | [] => -1
  | x :: rest' =>
      if IsStrictlyEqual x item then Z.of_nat index
      else indexOf_from (S index) rest' item
  end.

Definition Array_indexOf (array : list value) (item : value) : Z :=
  indexOf_from 0 array item.

Definition SortCompare (comparefn : value -> value -> number)
           (x y : value) : comparison :=
  match x, y with
  | Primitive VUndefined, Primitive VUndefined => Eq
  | Primitive VUndefined, _ => Gt
  | _, Primitive VUndefined => Lt
  | _, _ => sgn (comparefn x y)
  end.

(** The conversion to a string a template literal applies: a symbol is
    refused, an object converts as the heap says. *)
Definition ToString (heap : Heap) (v : value) : completion string :=
  match v with
  | Primitive p => Normal (JS.ToString p)
  | BigInt z => Normal (if (z <? 0)%Z then "-" ++ dec (- z) else dec z)
  | Symbol _ _ => Throw
  | Object ref | Function ref =>
      match toPrimitive_string heap ref with
      | Some s => Normal s
      | None => Throw
      end
  end.

(** [String(v)]: as [ToString], but a symbol gives its description. *)
Definition String_ (heap : Heap) (v : value) : completion string :=
  match v with
  | Symbol _ description =>
      Normal ("Symbol("
              ++ match description with Some d => d | None => "" end
              ++ ")")
  | _ => ToString heap v
  end.

(** [array.map(callback)] with a callback that can throw: the first
    throw ends the call. *)
Fixpoint map_from {A B : Type} (callback : A -> nat -> completion B)
         (index : nat) (rest : list A) : completion (list B) :=
  match rest with
  | [] => Normal []
  | item :: rest' =>
      do y <- callback item index;
      do ys <- map_from callback (S index) rest';
      Normal (y :: ys)
  end.

Definition Array_map {A B : Type} (callback : A -> nat -> completion B)
           (array : list A) : completion (list B) :=
  map_from callback 0 array.

Section TableSelectFilter.
Context {collator : Collator} {engine : SortEngine}.

Definition compareFn (a b : value) : number :=
  if String.eqb (typeof a) "number" && String.eqb (typeof b) "number" then
    match a, b with
    | Primitive (VNumber x), Primitive (VNumber y) => Number.sub x y
    | _, _ => of_Z 0
    end
  else if String.eqb (typeof a) "string" && String.eqb (typeof b) "string" then
    match a, b with
    | Primitive (VString x), Primitive (VString y) => of_Z (localeCompare x y)
    | _, _ => of_Z 0
    end
  else of_Z 0.

Definition dropFalsy (rowValues : list value) : list value :=
  Array_filter (fun item _ _ => ToBoolean item) rowValues.

Definition dropRepeats (rowValues : list value) : list value :=
  Array_filter
    (fun item index array => Z.eqb (Array_indexOf array item) (Z.of_nat index))
    rowValues.

Definition sanitizeRowValues (rowValues : option (list value))
  : option (list value) :=
  option_map (sort_by (SortCompare compareFn))
    (option_map dropRepeats (option_map dropFalsy rowValues)).

(** The projection of one value: the identifier's template literal
    first, then the two calls of [String]. *)
Definition toOption (heap : Heap) (columnId : value) (i : value) (index : nat)
  : completion Option_ :=
  do idText <- ToString heap columnId;
  do labelText <- String_ heap i;
  do valueText <- String_ heap i;
  Normal {| id := idText ++ "-choice-"
                  ++ JS.ToString (VNumber (of_nat index));
            label := labelText;
            value_ := valueText |}.

(** [rowValues?.map(...) || []]. *)
Definition optionsOf (heap : Heap) (columnId : value)
           (rowValues : option (list value)) : completion (list Option_) :=
  match rowValues with
  | Some vs => Array_map (toOption heap columnId) vs
  | None => Normal []
  end.

Definition derive (heap : Heap) (columnId : value) (raw : list value)
  : completion (list Option_) :=
  optionsOf heap columnId (sanitizeRowValues (Some raw)).

End TableSelectFilter.

End Any.

(** ** The text field: validity flags

    [FormHelperProps] is declared in a file that is not at hand; the
    flags read one optional field of it, [type], and nothing else.  The
    type and that field are parameters. *)
Module TextField.
Section Flags.
Variable FormHelperProps : Type.
Variable type : FormHelperProps -> option string.

(** [helper?.type === t]. *)
Definition helper_type_is (helper : option FormHelperProps) (t : string) : bool :=
  match helper with
  | Some h =>
      match type h with
      | Some ty => String.eqb ty t
      | None => false
      end
  | None => false
  end.

(** [invalid || helper?.type === 'error']; [invalid] is optional. *)
Definition isInvalid (invalid : option bool) (helper : option FormHelperProps)
  : bool :=
  match invalid with
  | Some true => true
  | _ => helper_type_is helper "error"
  end.

(** [!invalid && helper?.type === 'valid']. *)
Definition isValid (invalid : option bool) (helper : option FormHelperProps)
  : bool :=
  match invalid with
  | Some true => false
  | _ => helper_type_is helper "valid"
  end.

End Flags.
End TextField.

(** A context to run the component on: a status column with the options
    "b", "a", "b" over two rows. *)
Definition statusContext : TableFilterContext :=
  {| column :=
       Some {| columnDef :=
                 Some {| columnDef_id := VString "status";
                         filterFn := VString "select";
                         meta := Some {| filterOptions :=
                                           Some [VString "b"; VString "a";
                                                 VString "b"] |} |} |};
     rows := Some [Some {| getValue := fun _ => VString "open" |};
                   Some {| getValue := fun _ => VNumber (of_Z 7) |}];
     setOpen := true;
     contextValues := None |}.

(** ** The choice group of the filter *)

(** The [inputType] handed to the choice group:
    [inputType === 'select' ? 'radio' : 'checkbox']. *)
Definition choiceGroup_inputType (ctx : TableFilterContext) : string :=
  if IsStrictlyEqual (inputType ctx) (VString "select")
  then "radio" else "checkbox".

(** [errors[fieldName]] of the form library: nothing, a message, or a
    list of messages. *)
Inductive FieldError : Type :=
| NoError
| ErrorText (s : string)
| ErrorList (items : list string).

(** [errors[fieldName]?.length !== 0].  Without an entry the left side is
    undefined, which is not 0. *)
Definition length_is_not_zero (e : FieldError) : bool :=
  match e with
  | NoError => true
  | ErrorText s => negb (Nat.eqb (String.length s) 0)
  | ErrorList items => negb (Nat.eqb (List.length items) 0)
  end.

(** The helper object handed to the choice group; [helper_type] is absent
    from the second form. *)
Record ChoiceGroupHelper : Type := {
  helper_text : FieldError;
  helper_type : option string
}.

Definition choiceGroup_helper (e : FieldError) : ChoiceGroupHelper :=
  if length_is_not_zero e
  then {| helper_text := e; helper_type := Some "error" |}
  else {| helper_text := ErrorText ""; helper_type := None |}.

(** ** The text field: the element it renders *)
Module TextFieldElement.

(** [isTextAreaRef]: [!!props.isTextArea]; the prop is optional. *)
Definition isTextAreaRef (isTextArea : option bool) : bool :=
  match isTextArea with
  | Some true => true
  | _ => false
  end.

(** [isInputRef]: [!props.isTextArea]. *)
Definition isInputRef (isTextArea : option bool) : bool :=
  match isTextArea with
  | Some true => false
  | _ => true
  end.

(** What [renderInputElement] returns: a textarea, an input, or null;
    the element carries its [aria-invalid]. *)
Inductive Element : Type :=
| Textarea (ariaInvalid : bool)
| Input (ariaInvalid : bool)
| Null.

Section Render.
Variable FormHelperProps : Type.
Variable type : FormHelperProps -> option string.

Definition renderInputElement (isTextArea : option bool)
           (invalid : option bool) (helper : option FormHelperProps) : Element :=
  let ariaInvalid := TextField.isInvalid FormHelperProps type invalid helper in
  if isTextAreaRef isTextArea then Textarea ariaInvalid
  else if isInputRef isTextArea then Input ariaInvalid
  else Null.

End Render.
End TextFieldElement.

(** Two more contexts to run the component on: a size column without
    [filterOptions] over four rows, and a column whose [filterOptions]
    hold empty strings only. *)
Definition sizeRow (size : value) : option Row :=
  Some {| getValue := fun columnId =>
                        if String.eqb columnId "size" then size else VUndefined |}.

Definition sizesContext : TableFilterContext :=
  {| column :=
       Some {| columnDef :=
                 Some {| columnDef_id := VString "size";
                         filterFn := VString "multi-select";
                         meta := None |} |};
     rows := Some [sizeRow (VNumber (of_Z 3)); sizeRow (VString "");
                   sizeRow (VNumber (of_Z 1)); sizeRow (VNumber (of_Z 3))];
     setOpen := true;
     contextValues := None |}.

Definition blankOptionsContext : TableFilterContext :=
  {| column :=
       Some {| columnDef :=
                 Some {| columnDef_id := VString "size";
                         filterFn := VString "select";
                         meta := Some {| filterOptions :=
                                           Some [VString ""; VString ""] |} |} |};
     rows := Some [sizeRow (VNumber (of_Z 3)); sizeRow (VNumber (of_Z 1))];
     setOpen := true;
     contextValues := None |}.

(** A collation to run the definitions with: code-unit order. *)
Definition codeUnitCompare (a b : string) : Z :=
  match OrdersEx.String_as_OT.compare a b with Lt => -1 | Eq => 0 | Gt => 1 end.

(** * Theorems *)

(** ** Rounding keeps the sign *)
Module NumberFacts.
Local Open Scope Z_scope.

Lemma shr_1_m mrs : 0 <= shr_m mrs -> shr_m (shr_1 mrs) = Z.div2 (shr_m mrs).
Proof.
  destruct mrs as [m r s]; simpl.
  destruct m as [|[p|p|]|p]; simpl; intros; try reflexivity; lia.
Qed.

Lemma iter_pos_shr_1 p : forall mrs, 0 <= shr_m mrs ->
  shr_m (iter_pos shr_1 p mrs) = Z.shiftr (shr_m mrs) (Zpos p).
Proof.
  induction p as [p IH|p IH|]; intros mrs Hm; simpl.
  - assert (H1 : 0 <= shr_m (shr_1 mrs)).
    { rewrite shr_1_m by assumption. apply Z.div2_nonneg; assumption. }
    assert (H2 : 0 <= shr_m (iter_pos shr_1 p (shr_1 mrs))).
    { rewrite IH by assumption. apply Z.shiftr_nonneg; assumption. }
    rewrite IH, IH, shr_1_m by assumption.
    rewrite Z.div2_spec, !Z.shiftr_shiftr by lia.
    f_equal; lia.
  - assert (H2 : 0 <= shr_m (iter_pos shr_1 p mrs)).
    { rewrite IH by assumption. apply Z.shiftr_nonneg; assumption. }
    rewrite IH, IH by assumption.
    rewrite Z.shiftr_shiftr by lia. f_equal; lia.
  - rewrite shr_1_m by assumption. apply Z.div2_spec.
Qed.

Lemma digits2_pos_lb m : 2 ^ (Zpos (digits2_pos m) - 1) <= Zpos m.
Proof.
  induction m as [m IH|m IH|]; simpl digits2_pos.
  - rewrite Pos2Z.inj_succ.
    replace (Z.succ (Zpos (digits2_pos m)) - 1)
      with (Z.succ (Zpos (digits2_pos m) - 1)) by lia.
    rewrite Z.pow_succ_r by lia. lia.
  - rewrite Pos2Z.inj_succ.
    replace (Z.succ (Zpos (digits2_pos m)) - 1)
      with (Z.succ (Zpos (digits2_pos m) - 1)) by lia.
    rewrite Z.pow_succ_r by lia. lia.
  - simpl. lia.
Qed.

(** Above [emin] the shift of [shr_fexp] never drops the leading bit. *)
Lemma shr_fexp_pos m e l :
  0 < m -> emin prec emax <= e ->
  0 < shr_m (fst (shr_fexp prec emax m e l))
  /\ emin prec emax <= snd (shr_fexp prec emax m e l).
Proof.
  intros Hm He. unfold shr_fexp, shr.
  assert (Hr : shr_m (shr_record_of_loc m l) = m)
    by (destruct l as [|[]]; reflexivity).
  destruct (fexp prec emax (Zdigits2 m + e) - e) as [|p|p] eqn:Hn;
    simpl; rewrite ?Hr; try (split; lia).
  destruct m as [|m|m]; try lia. simpl Zdigits2 in Hn.
  unfold fexp in Hn.
  assert (Hp : Zpos p = Zpos (digits2_pos m) - prec) by lia.
  split; [|lia].
  rewrite iter_pos_shr_1 by (rewrite Hr; lia).
  rewrite Hr, Z.shiftr_div_pow2 by lia.
  pose proof (digits2_pos_lb m) as Hlb.
  assert (2 ^ Zpos p <= 2 ^ (Zpos (digits2_pos m) - 1)).
  { apply Z.pow_le_mono_r; unfold prec in *; lia. }
  assert (0 < 2 ^ Zpos p) by (apply Z.pow_pos_nonneg; lia).
  apply Z.div_str_pos. lia.
Qed.

Lemma round_nearest_even_ge m l : m <= round_nearest_even m l.
Proof. destruct l as [|[]]; simpl; try lia. destruct (Z.even m); lia. Qed.

Lemma binary_round_aux_sgn sx mx ex lx :
  0 < mx -> emin prec emax <= ex ->
  sgn (binary_round_aux prec emax sx mx ex lx) = if sx then Lt else Gt.
Proof.
  intros Hm He. unfold binary_round_aux.
  pose proof (shr_fexp_pos mx ex lx Hm He) as [H1 H2].
  destruct (shr_fexp prec emax mx ex lx) as [mrs' e']; simpl in H1, H2.
  pose proof (round_nearest_even_ge (shr_m mrs') (loc_of_shr_record mrs')) as Hr.
  assert (Hm' : 0 < round_nearest_even (shr_m mrs') (loc_of_shr_record mrs'))
    by lia.
  pose proof (shr_fexp_pos _ e' loc_Exact Hm' H2) as [H3 H4].
  destruct (shr_fexp prec emax _ e' loc_Exact) as [mrs'' e'']; simpl in H3, H4.
  destruct (shr_m mrs'') as [|m|m]; try lia.
  destruct (e'' <=? emax - prec); reflexivity.
Qed.

(** Whatever the exponent, a rounded result never takes the other sign. *)
Lemma binary_round_aux_side sx mx ex lx :
  sgn (binary_round_aux prec emax sx mx ex lx) <> if sx then Gt else Lt.
Proof.
  unfold binary_round_aux.
  destruct (shr_fexp prec emax mx ex lx) as [mrs' e'].
  destruct (shr_fexp prec emax _ e' loc_Exact) as [mrs'' e''].
  destruct (shr_m mrs'') as [|m|m];
    [| destruct (e'' <=? emax - prec) |]; destruct sx; discriminate.
Qed.

Lemma binary_round_sgn sx mx ex :
  emin prec emax <= ex ->
  sgn (binary_round prec emax sx mx ex) = if sx then Lt else Gt.
Proof.
  intros He. unfold binary_round, shl_align.
  destruct (fexp prec emax (Zpos (digits2_pos mx) + ex) - ex) as [|d|d] eqn:Hd;
    apply binary_round_aux_sgn; try lia.
  unfold fexp. lia.
Qed.

Lemma binary_round_side sx mx ex :
  sgn (binary_round prec emax sx mx ex) <> if sx then Gt else Lt.
Proof.
  unfold binary_round.
  destruct (shl_align mx ex _) as [mz ez]. apply binary_round_aux_side.
Qed.

Lemma binary_normalize_sgn m e :
  emin prec emax <= e ->
  sgn (binary_normalize prec emax m e false) = (m ?= 0).
Proof.
  intros He. destruct m as [|m|m]; simpl; [reflexivity| |];
    rewrite binary_round_sgn by assumption; reflexivity.
Qed.

Lemma binary_normalize_Gt m e :
  sgn (binary_normalize prec emax m e false) = Gt -> 0 < m.
Proof.
  destruct m as [|m|m]; simpl; intros H; try lia; try discriminate.
  exfalso. exact (binary_round_side true m e H).
Qed.

Lemma binary_normalize_neg m e :
  m < 0 -> sgn (binary_normalize prec emax m e false) <> Gt.
Proof.
  intros Hm H. apply binary_normalize_Gt in H. lia.
Qed.

Lemma of_Z_sgn z : sgn (of_Z z) = (z ?= 0).
Proof. apply binary_normalize_sgn. vm_compute. discriminate. Qed.

Lemma shl_align_fst m e ez :
  ez <= e -> Zpos (fst (shl_align m e ez)) = Zpos m * 2 ^ (e - ez).
Proof.
  intros Hle. unfold shl_align.
  destruct (ez - e) as [|d|d] eqn:Hd; simpl fst.
  - replace (e - ez) with 0 by lia. simpl. lia.
  - lia.
  - replace (e - ez) with (Zpos d) by lia.
    change (Pos.iter xO m d) with (shift_pos d m).
    rewrite shift_pos_correct. change (Z.pow_pos 2 d) with (2 ^ Zpos d). lia.
Qed.

Lemma is_double_emin s m e :
  is_double (S754_finite s m e) = true -> emin prec emax <= e.
Proof.
  unfold is_double, valid_binary, bounded, canonical_mantissa, fexp.
  intros H. apply andb_prop in H as [H _]. apply Z.eqb_eq in H. lia.
Qed.

Lemma ulps_aligned s m e ez :
  emin prec emax <= ez -> ez <= e ->
  ulps s m e
  = cond_Zopp s (Zpos (fst (shl_align m e ez))) * 2 ^ (ez - emin prec emax).
Proof.
  intros H1 H2. unfold ulps. rewrite shl_align_fst by assumption.
  replace (e - emin prec emax) with ((e - ez) + (ez - emin prec emax)) by lia.
  rewrite Z.pow_add_r by lia.
  unfold cond_Zopp. destruct s; ring.
Qed.

Lemma ulps_sign s m e :
  emin prec emax <= e -> (ulps s m e ?= 0) = if s then Lt else Gt.
Proof.
  intros He. unfold ulps.
  assert (0 < Zpos m * 2 ^ (e - emin prec emax)).
  { apply Z.mul_pos_pos; [lia | apply Z.pow_pos_nonneg; lia]. }
  unfold cond_Zopp.
  destruct s; [apply Z.compare_lt_iff | apply Z.compare_gt_iff]; lia.
Qed.

(** The sign of the rounded difference of two doubles is their order. *)
Lemma sub_sgn_compare a b c :
  is_double a = true -> is_double b = true ->
  Number.compare a b = Some c -> sgn (Number.sub a b) = c.
Proof.
  intros Ha Hb.
  destruct a as [sa|sa| |sa ma ea], b as [sb|sb| |sb mb eb];
    unfold Number.compare; simpl; intros Hc; inversion Hc; subst; clear Hc;
    try discriminate;
    try (destruct sa, sb; reflexivity);
    try (destruct sa; reflexivity); try (destruct sb; reflexivity).
  - apply is_double_emin in Hb.
    change (match ulps sb mb eb with 0 => Eq | Zpos _ => Lt | Zneg _ => Gt end)
      with (0 ?= ulps sb mb eb).
    rewrite Z.compare_antisym, ulps_sign by assumption. destruct sb; reflexivity.
  - apply is_double_emin in Ha.
    rewrite ulps_sign by assumption. destruct sa; reflexivity.
  - apply is_double_emin in Ha. apply is_double_emin in Hb.
    change (IntDef.Z.min ea eb) with (Z.min ea eb).
    rewrite binary_normalize_sgn by lia.
    rewrite (ulps_aligned sa ma ea (Z.min ea eb)) by lia.
    rewrite (ulps_aligned sb mb eb (Z.min ea eb)) by lia.
    rewrite <- Zmult_compare_compat_r
      by (apply Z.lt_gt, Z.pow_pos_nonneg; lia).
    symmetry. apply Z.compare_sub.
Qed.

(** Without any side condition: if [a - b] is positive, [b - a] is not. *)
Lemma sub_Gt_flip a b :
  sgn (Number.sub a b) = Gt -> sgn (Number.sub b a) <> Gt.
Proof.
  destruct a as [[]|[]| |sa ma ea], b as [[]|[]| |sb mb eb];
    unfold Number.sub; cbn [SFsub sgn negb]; intros H;
    try discriminate H; try discriminate;
    try (destruct sa; cbn [negb] in *; first [discriminate H | discriminate]);
    try (destruct sb; cbn [negb] in *; first [discriminate H | discriminate]).
  apply binary_normalize_Gt in H.
  apply binary_normalize_neg. rewrite Z.min_comm. lia.
Qed.

Lemma digits2_pos_ub m : Zpos m < 2 ^ Zpos (digits2_pos m).
Proof.
  induction m as [m IH|m IH|]; simpl digits2_pos.
  - rewrite Pos2Z.inj_succ, Z.pow_succ_r by lia. lia.
  - rewrite Pos2Z.inj_succ, Z.pow_succ_r by lia. lia.
  - simpl. lia.
Qed.

Lemma is_double_digits s m e :
  is_double (S754_finite s m e) = true ->
  emin prec emax <= e
  /\ Zpos (digits2_pos m) <= prec
  /\ (emin prec emax < e -> Zpos (digits2_pos m) = prec).
Proof.
  unfold is_double, valid_binary, bounded, canonical_mantissa, fexp.
  intros H. apply andb_prop in H as [H _]. apply Z.eqb_eq in H. lia.
Qed.

(** Of two positive doubles the one with the smaller exponent is the
    smaller one. *)
Lemma ulps_exponent s1 s2 m1 e1 m2 e2 :
  is_double (S754_finite s1 m1 e1) = true ->
  is_double (S754_finite s2 m2 e2) = true ->
  e1 < e2 ->
  Zpos m1 * 2 ^ (e1 - emin prec emax) < Zpos m2 * 2 ^ (e2 - emin prec emax).
Proof.
  intros H1 H2 Hlt.
  apply is_double_digits in H1 as (He1 & Hd1 & _).
  apply is_double_digits in H2 as (He2 & _ & Hd2).
  specialize (Hd2 ltac:(lia)).
  pose proof (digits2_pos_ub m1) as Hub.
  pose proof (digits2_pos_lb m2) as Hlb. rewrite Hd2 in Hlb.
  assert (Hp : 2 ^ Zpos (digits2_pos m1) <= 2 ^ prec)
    by (apply Z.pow_le_mono_r; lia).
  set (k1 := e1 - emin prec emax) in *. set (k2 := e2 - emin prec emax) in *.
  assert (Hk : 2 ^ k2 = 2 ^ (k2 - k1 - 1) * 2 * 2 ^ k1).
  { replace k2 with ((k2 - k1 - 1) + 1 + k1) at 1 by lia.
    rewrite !Z.pow_add_r by lia. reflexivity. }
  assert (0 < 2 ^ k1) by (apply Z.pow_pos_nonneg; lia).
  assert (0 < 2 ^ (k2 - k1 - 1)) by (apply Z.pow_pos_nonneg; lia).
  assert (Hprec : 2 ^ prec = 2 * 2 ^ (prec - 1)) by reflexivity.
  rewrite Hk. nia.
Qed.

(** On doubles, the order by value is the comparison of the standard
    library's specification. *)
Lemma compare_SFcompare a b :
  is_double a = true -> is_double b = true ->
  Number.compare a b = SFcompare a b.
Proof.
  intros Ha Hb.
  destruct a as [sa|sa| |sa ma ea], b as [sb|sb| |sb mb eb];
    unfold Number.compare; cbn [key SFcompare ext_compare];
    try reflexivity;
    try (destruct sa, sb; reflexivity);
    try (destruct sa; reflexivity); try (destruct sb; reflexivity).
  - f_equal. rewrite Z.compare_antisym, ulps_sign by (now apply is_double_emin in Hb).
    destruct sb; reflexivity.
  - f_equal. rewrite ulps_sign by (now apply is_double_emin in Ha).
    destruct sa; reflexivity.
  - f_equal.
    pose proof (is_double_emin _ _ _ Ha) as Hea.
    pose proof (is_double_emin _ _ _ Hb) as Heb.
    assert (Hpa : 0 < Zpos ma * 2 ^ (ea - emin prec emax))
      by (apply Z.mul_pos_pos; [lia | apply Z.pow_pos_nonneg; lia]).
    assert (Hpb : 0 < Zpos mb * 2 ^ (eb - emin prec emax))
      by (apply Z.mul_pos_pos; [lia | apply Z.pow_pos_nonneg; lia]).
    unfold ulps, cond_Zopp.
    destruct sa, sb.
    + destruct (ea ?= eb) eqn:He.
      * apply Z.compare_eq in He. subst eb.
        rewrite Z.compare_opp, <- Zmult_compare_compat_r
          by (apply Z.lt_gt, Z.pow_pos_nonneg; lia).
        change (Zpos mb ?= Zpos ma) with (Pos.compare mb ma).
        now rewrite Pos.compare_antisym.
      * apply Z.compare_lt_iff in He.
        pose proof (ulps_exponent _ _ _ _ _ _ Ha Hb He).
        apply Z.compare_gt_iff. lia.
      * apply Z.compare_gt_iff in He.
        pose proof (ulps_exponent _ _ _ _ _ _ Hb Ha He).
        apply Z.compare_lt_iff. lia.
    + apply Z.compare_lt_iff. lia.
    + apply Z.compare_gt_iff. lia.
    + destruct (ea ?= eb) eqn:He.
      * apply Z.compare_eq in He. subst eb.
        rewrite <- Zmult_compare_compat_r
          by (apply Z.lt_gt, Z.pow_pos_nonneg; lia).
        reflexivity.
      * apply Z.compare_lt_iff in He.
        pose proof (ulps_exponent _ _ _ _ _ _ Ha Hb He).
        apply Z.compare_lt_iff. lia.
      * apply Z.compare_gt_iff in He.
        pose proof (ulps_exponent _ _ _ _ _ _ Hb Ha He).
        apply Z.compare_gt_iff. lia.
Qed.

End NumberFacts.

(** ** Arrays: filter, map, indexOf *)
Module ArrayFacts.
Local Open Scope list_scope.

Lemma filter_from_pointwise {A} (f : A -> bool) array index rest :
  filter_from (fun item _ _ => f item) array index rest = filter f rest.
Proof.
  revert index. induction rest as [|x rest IH]; intros index; simpl.
  - reflexivity.
  - rewrite IH. reflexivity.
Qed.

Lemma map_from_length {A B} (callback : A -> nat -> B) index rest :
  List.length (map_from callback index rest) = List.length rest.
Proof.
  revert index. induction rest as [|x rest IH]; intros index; simpl;
    [reflexivity | now rewrite IH].
Qed.

Lemma map_from_nth_error {A B} (callback : A -> nat -> B) rest :
  forall index n x,
    nth_error rest n = Some x ->
    nth_error (map_from callback index rest) n
    = Some (callback x (index + n)%nat).
Proof.
  induction rest as [|y rest IH]; intros index [|n] x H; simpl in *;
    try discriminate.
  - inversion H; subst. now rewrite Nat.add_0_r.
  - rewrite (IH (S index) n x H). f_equal. f_equal. lia.
Qed.

Lemma map_from_In {A B} (callback : A -> nat -> B) rest :
  forall index o,
    In o (map_from callback index rest) <->
    exists x n, nth_error rest n = Some x /\ o = callback x (index + n)%nat.
Proof.
  induction rest as [|y rest IH]; intros index o; simpl.
  - split; [intros [] | intros (x & [|n] & H & _); discriminate H].
  - rewrite IH. split.
    + intros [<-|(x & n & Hn & ->)].
      * exists y, 0%nat. now rewrite Nat.add_0_r.
      * exists x, (S n). split; [assumption | f_equal; lia].
    + intros (x & [|n] & Hn & ->); simpl in Hn.
      * inversion Hn; subst. left. now rewrite Nat.add_0_r.
      * right. exists x, n. split; [assumption | f_equal; lia].
Qed.

Lemma map_from_project {A B C} (callback : A -> nat -> B) (g : B -> C)
      (h : A -> C) :
  (forall x i, g (callback x i) = h x) ->
  forall index rest, map g (map_from callback index rest) = map h rest.
Proof.
  intros Hg index rest. revert index.
  induction rest as [|x rest IH]; intros index; simpl;
    [reflexivity | now rewrite Hg, IH].
Qed.

Lemma indexOf_from_skip index pre rest item :
  existsb (fun p => IsStrictlyEqual p item) pre = false ->
  indexOf_from index (pre ++ rest) item
  = indexOf_from (index + List.length pre) rest item.
Proof.
  revert index. induction pre as [|p pre IH]; intros index H; simpl in *.
  - now rewrite Nat.add_0_r.
  - apply orb_false_elim in H as [Hp Hpre]. rewrite Hp.
    rewrite IH by assumption. f_equal. lia.
Qed.

Lemma indexOf_from_hit index pre rest item :
  existsb (fun p => IsStrictlyEqual p item) pre = true ->
  (Z.of_nat index <= indexOf_from index (pre ++ rest) item
   < Z.of_nat (index + List.length pre))%Z.
Proof.
  revert index. induction pre as [|p pre IH]; intros index H; simpl in *.
  - discriminate.
  - destruct (IsStrictlyEqual p item) eqn:Hp.
    + lia.
    + simpl in H. specialize (IH (S index) H). lia.
Qed.

End ArrayFacts.

(** ** Lists: adjacent order, relative position *)
Module ListFacts.
Local Open Scope list_scope.

Section Adjacent.
Context {A : Type} (R : A -> A -> Prop).

Lemma Sorted_middle front x back :
  Sorted R (front ++ back) ->
  (forall f p, front = f ++ [p] -> R p x) ->
  (forall q b, back = q :: b -> R x q) ->
  Sorted R (front ++ x :: back).
Proof.
  induction front as [|a front IH]; intros Hs Hl Hr; simpl in *.
  - constructor; [assumption|].
    destruct back as [|q b]; constructor. now apply (Hr q b).
  - inversion Hs as [|? ? Hs' Hhd]; subst.
    constructor.
    + apply IH; [assumption| |assumption].
      intros f p ->. apply (Hl (a :: f) p). reflexivity.
    + destruct front as [|b front]; simpl in *.
      * constructor. apply (Hl [] a). reflexivity.
      * inversion Hhd; subst. constructor. assumption.
Qed.

Lemma Sorted_app_l l1 l2 : Sorted R (l1 ++ l2) -> Sorted R l1.
Proof.
  induction l1 as [|a l1 IH]; intros Hs; simpl in *; [constructor|].
  inversion Hs as [|? ? Hs' Hhd]; subst. constructor; [now apply IH|].
  destruct l1; simpl in *; [constructor|].
  inversion Hhd; subst. now constructor.
Qed.

Lemma Sorted_app_r l1 l2 : Sorted R (l1 ++ l2) -> Sorted R l2.
Proof.
  induction l1 as [|a l1 IH]; intros Hs; simpl in *; [assumption|].
  inversion Hs; subst. now apply IH.
Qed.

Lemma Sorted_last_snoc l q x : Sorted R ((l ++ [q]) ++ [x]) -> R q x.
Proof.
  rewrite <- app_assoc. intros Hs. apply Sorted_app_r in Hs. simpl in Hs.
  inversion Hs as [|? ? _ Hhd]; subst. now inversion Hhd.
Qed.

(** Adjacent order gives order of every pair where [R] is transitive
    on the elements at hand. *)
Lemma Sorted_StronglySorted_on (P : A -> Prop) l :
  (forall x y z, P x -> P y -> P z -> R x y -> R y z -> R x z) ->
  Forall P l -> Sorted R l -> StronglySorted R l.
Proof.
  intros Htrans. induction l as [|a l IH]; intros HP Hs; [constructor|].
  inversion HP as [|? ? Pa HP']; subst.
  inversion Hs as [|? ? Hs' Hhd]; subst.
  specialize (IH HP' Hs'). constructor; [assumption|].
  destruct l as [|b l]; [constructor|].
  inversion Hhd; subst. inversion IH as [|? ? _ Hall]; subst.
  inversion HP' as [|? ? Pb HP'']; subst.
  constructor; [assumption|].
  rewrite Forall_forall in *. intros z Hz.
  apply (Htrans a b z); auto.
Qed.

Lemma Sorted_weaken (R' : A -> A -> Prop) (P : A -> Prop) l :
  (forall x y, P x -> P y -> R x y -> R' x y) ->
  Forall P l -> Sorted R l -> Sorted R' l.
Proof.
  intros Himp. induction l as [|a l IH]; intros HP Hs; [constructor|].
  inversion HP as [|? ? Pa HP']; subst.
  inversion Hs as [|? ? Hs' Hhd]; subst.
  constructor; [now apply IH|].
  destruct l as [|b l]; [constructor|].
  inversion Hhd; subst. inversion HP'; subst. constructor. now apply Himp.
Qed.
End Adjacent.

Section Before.
Context {A : Type}.
Implicit Types (x y z : A) (l : list A).

Lemma before_split x y l :
  before x y l <-> exists l1 l2 l3, l = l1 ++ x :: l2 ++ y :: l3.
Proof.
  split.
  - induction 1 as [l Hy|a l _ (l1 & l2 & l3 & ->)].
    + apply in_split in Hy as (l2 & l3 & ->). now exists [], l2, l3.
    + now exists (a :: l1), l2, l3.
  - intros (l1 & l2 & l3 & ->). induction l1 as [|a l1 IH]; simpl.
    + apply before_here. apply in_or_app. right. now left.
    + now apply before_later.
Qed.

Lemma before_insert x y z front back :
  before x y (front ++ back) -> before x y (front ++ z :: back).
Proof.
  induction front as [|a front IH]; simpl; intros H.
  - now apply before_later.
  - inversion H as [l Hy|b l Hb]; subst.
    + apply before_here. apply in_app_or in Hy. apply in_or_app.
      destruct Hy; [now left | right; now right].
    + apply before_later. now apply IH.
Qed.

Lemma before_new x y front back :
  In x front -> before x y (front ++ y :: back).
Proof.
  induction front as [|a front IH]; simpl; intros H; [contradiction|].
  destruct H as [->|H].
  - apply before_here. apply in_or_app. right. now left.
  - apply before_later. now apply IH.
Qed.

Lemma before_snoc x y z l :
  before x y (l ++ [z]) -> before x y l \/ (y = z /\ In x l).
Proof.
  induction l as [|a l IH]; simpl; intros H.
  - inversion H as [l' Hy|b l' Hb]; subst; [contradiction|inversion Hb].
  - inversion H as [l' Hy|b l' Hb]; subst.
    + apply in_app_or in Hy as [Hy|[->|[]]].
      * left. now apply before_here.
      * right. split; [reflexivity | now left].
    + destruct (IH Hb) as [Hl|[-> Hx]].
      * left. now apply before_later.
      * right. split; [reflexivity | now right].
Qed.
Lemma before_In x y l : before x y l -> In x l /\ In y l.
Proof.
  induction 1 as [l Hy|a l _ [Hx Hy]]; split;
    [now left | now right | now right | now right].
Qed.

Lemma before_asym x y l : NoDup l -> before x y l -> before y x l -> False.
Proof.
  induction l as [|a l IH]; intros Hnd Hxy Hyx; [inversion Hxy|].
  inversion Hnd as [|? ? Ha Hnd']; subst.
  inversion Hxy as [l' Hy|b l' Hxy']; subst.
  - inversion Hyx as [l' Hx|b l' Hyx']; subst.
    + contradiction.
    + apply before_In in Hyx' as [_ Hx]. contradiction.
  - inversion Hyx as [l' Hx|b l' Hyx']; subst.
    + apply before_In in Hxy' as [_ Hy]. contradiction.
    + now apply IH.
Qed.

Lemma before_cases x y l :
  In x l -> In y l -> x = y \/ before x y l \/ before y x l.
Proof.
  induction l as [|a l IH]; intros Hx Hy; [contradiction|].
  destruct Hx as [->|Hx], Hy as [->|Hy].
  - now left.
  - right. left. now apply before_here.
  - right. right. now apply before_here.
  - destruct (IH Hx Hy) as [H|[H|H]]; [now left | right; left | right; right];
      now apply before_later.
Qed.

Lemma before_trans x y z l :
  NoDup l -> before x y l -> before y z l -> before x z l.
Proof.
  induction l as [|a l IH]; intros Hnd Hxy Hyz; [inversion Hxy|].
  inversion Hnd as [|? ? Ha Hnd']; subst.
  inversion Hxy as [l' Hy|b l' Hxy']; subst.
  - inversion Hyz as [l' Hz|b l' Hyz']; subst.
    + contradiction.
    + apply before_here. now apply before_In in Hyz'.
  - inversion Hyz as [l' Hz|b l' Hyz']; subst.
    + apply before_In in Hxy' as [_ Hy]. contradiction.
    + apply before_later. now apply IH.
Qed.

Lemma StronglySorted_before (R : A -> A -> Prop) l x y :
  StronglySorted R l -> before x y l -> R x y.
Proof.
  induction 1 as [|a l _ IH Hall]; intros Hb; [inversion Hb|].
  inversion Hb as [l' Hy|b l' Hb']; subst.
  - rewrite Forall_forall in Hall. now apply Hall.
  - now apply IH.
Qed.

Lemma StronglySorted_of_before (R : A -> A -> Prop) l :
  (forall x y, before x y l -> R x y) -> StronglySorted R l.
Proof.
  induction l as [|a l IH]; intros H; constructor.
  - apply IH. intros x y Hb. apply H. now apply before_later.
  - apply Forall_forall. intros y Hy. apply H. now apply before_here.
Qed.

(** A sorted list without repeats is determined by its elements, when the
    order is antisymmetric on them. *)
Lemma StronglySorted_unique (R : A -> A -> Prop) (l1 : list A) :
  forall l2,
    (forall x y, In x l1 -> In y l1 -> R x y -> R y x -> x = y) ->
    StronglySorted R l1 -> StronglySorted R l2 ->
    NoDup l1 -> NoDup l2 ->
    (forall x, In x l1 <-> In x l2) ->
    l1 = l2.
Proof.
  induction l1 as [|a t1 IH]; intros l2 Hanti S1 S2 N1 N2 Hsame.
  - destruct l2 as [|b t2]; [reflexivity|].
    exfalso. apply (proj2 (Hsame b)). now left.
  - destruct l2 as [|b t2].
    { exfalso. apply (proj1 (Hsame a)). now left. }
    apply StronglySorted_inv in S1 as [S1 Ha].
    apply StronglySorted_inv in S2 as [S2 Hb].
    rewrite Forall_forall in Ha, Hb.
    inversion N1 as [|? ? Na N1']; subst. inversion N2 as [|? ? Nb N2']; subst.
    assert (Hab : a = b).
    { destruct (proj1 (Hsame a) (or_introl eq_refl)) as [Heq|Hin]; [now subst|].
      destruct (proj2 (Hsame b) (or_introl eq_refl)) as [Heq|Hin']; [now subst|].
      apply Hanti; [now left | now right | now apply Ha | now apply Hb]. }
    subst b. f_equal. apply IH; try assumption.
    + intros x y Hx Hy. apply Hanti; now right.
    + intros x. split; intros Hx.
      * destruct (proj1 (Hsame x) (or_intror Hx)) as [Heq|Hin]; [|assumption].
        subst x. contradiction.
      * destruct (proj2 (Hsame x) (or_intror Hx)) as [Heq|Hin]; [|assumption].
        subst x. contradiction.
Qed.

(** The stable sorted order of a list without repeats is unique. *)
Lemma stable_sorted_unique (cmp : A -> A -> comparison) (l o1 o2 : list A) :
  NoDup l -> consistent_on cmp l ->
  Permutation o1 l -> Permutation o2 l ->
  StronglySorted (fun x y => cmp x y <> Gt) o1 ->
  StronglySorted (fun x y => cmp x y <> Gt) o2 ->
  (forall x y, before x y l -> cmp x y = Eq -> before x y o1) ->
  (forall x y, before x y l -> cmp x y = Eq -> before x y o2) ->
  o1 = o2.
Proof.
  intros Hnd [Hanti Htrans] P1 P2 S1 S2 T1 T2.
  set (R := fun x y => cmp x y = Lt
                       \/ (cmp x y = Eq /\ (x = y \/ before x y l))).
  assert (Hrel : forall o,
            Permutation o l -> StronglySorted (fun x y => cmp x y <> Gt) o ->
            (forall x y, before x y l -> cmp x y = Eq -> before x y o) ->
            forall x y, before x y o -> R x y).
  { intros o Po So To x y Hb.
    pose proof (StronglySorted_before _ _ _ _ So Hb) as Hle.
    destruct (before_In _ _ _ Hb) as [Hx Hy].
    apply (Permutation_in _ Po) in Hx. apply (Permutation_in _ Po) in Hy.
    unfold R. destruct (cmp x y) eqn:Hc; [right|now left|congruence].
    split; [reflexivity|].
    destruct (before_cases x y l Hx Hy) as [Heq|[Hxy|Hyx]]; auto.
    exfalso. apply (before_asym x y o); [|assumption|].
    - now apply (Permutation_NoDup (Permutation_sym Po)).
    - apply To; [assumption|]. rewrite (Hanti x y Hx Hy), Hc. reflexivity. }
  apply (StronglySorted_unique R).
  - intros x y Hx Hy [Hxy|[Hxy Hbxy]] [Hyx|[Hyx Hbyx]].
    + apply (Permutation_in _ P1) in Hx, Hy.
      rewrite (Hanti x y Hx Hy), Hxy in Hyx. discriminate.
    + apply (Permutation_in _ P1) in Hx, Hy.
      rewrite (Hanti x y Hx Hy), Hxy in Hyx. discriminate.
    + apply (Permutation_in _ P1) in Hx, Hy.
      rewrite (Hanti x y Hx Hy), Hxy in Hyx. discriminate.
    + destruct Hbxy as [Heq|Hbxy]; [assumption|].
      destruct Hbyx as [Heq|Hbyx]; [now symmetry|].
      exfalso. exact (before_asym x y l Hnd Hbxy Hbyx).
  - apply StronglySorted_of_before. now apply Hrel.
  - apply StronglySorted_of_before. now apply Hrel.
  - now apply (Permutation_NoDup (Permutation_sym P1)).
  - now apply (Permutation_NoDup (Permutation_sym P2)).
  - intros x. split; intros Hx.
    + apply (Permutation_in _ (Permutation_sym P2)).
      now apply (Permutation_in _ P1).
    + apply (Permutation_in _ (Permutation_sym P1)).
      now apply (Permutation_in _ P2).
Qed.

End Before.

End ListFacts.

(** ** The reference sort *)
Module SortFacts.
Local Open Scope list_scope.
Import ListFacts.

Section Sort.
Context {A : Type} (cmp : A -> A -> comparison).

#[local] Abbreviation in_order := (fun u v : A => cmp u v <> Gt).

Lemma insert_split element placed :
  exists pre post,
    placed = pre ++ post
    /\ insert cmp element placed = pre ++ element :: post
    /\ Forall (fun q => cmp q element = Gt) pre
    /\ (forall p post', post = p :: post' -> in_order p element).
Proof.
  induction placed as [|tmp placed IH]; simpl.
  - exists [], []. repeat split; auto. intros ? ? H; discriminate H.
  - destruct (cmp tmp element) eqn:Hc.
    + exists [], (tmp :: placed). repeat split; auto.
      intros p post' H; inversion H; subst. congruence.
    + exists [], (tmp :: placed). repeat split; auto.
      intros p post' H; inversion H; subst. congruence.
    + destruct IH as (pre & post & -> & -> & Hpre & Hpost).
      exists (tmp :: pre), post. repeat split; auto.
Qed.

(** One more element: it lands in the sorted prefix, to the left of
    the elements it moved past, all of which compare greater. *)
Lemma insertionSort_snoc l x :
  exists front back,
    insertionSort cmp l = front ++ back
    /\ insertionSort cmp (l ++ [x]) = front ++ x :: back
    /\ Forall (fun q => cmp q x = Gt) back
    /\ (forall f p, front = f ++ [p] -> in_order p x).
Proof.
  unfold insertionSort. rewrite fold_left_app. simpl.
  set (placed := fold_left _ l []).
  destruct (insert_split x placed) as (pre & post & Hp & Hi & Hpre & Hpost).
  exists (rev post), (rev pre). rewrite Hi, Hp. repeat split.
  - apply rev_app_distr.
  - rewrite rev_app_distr. simpl. now rewrite <- app_assoc.
  - now apply Forall_rev.
  - intros f p Hf. apply (Hpost p (rev f)).
    rewrite <- (rev_involutive post), Hf, rev_app_distr. reflexivity.
Qed.

Lemma insertionSort_Permutation l : Permutation (insertionSort cmp l) l.
Proof.
  induction l as [|x l IH] using rev_ind; [constructor|].
  destruct (insertionSort_snoc l x) as (front & back & Hl & -> & _ & _).
  rewrite Hl in IH.
  apply Permutation_sym, Permutation_trans with (x :: l).
  - apply Permutation_sym, Permutation_cons_append.
  - apply Permutation_cons_app. now apply Permutation_sym.
Qed.

(** Stability: a pair that the comparison does not put out of order
    keeps its relative position. *)
Lemma insertionSort_stable l x y :
  before x y l -> in_order x y -> before x y (insertionSort cmp l).
Proof.
  intros Hb Hxy. induction l as [|z l IH] using rev_ind.
  - inversion Hb.
  - destruct (insertionSort_snoc l z) as (front & back & Hl & -> & Hback & _).
    apply before_snoc in Hb as [Hb|[-> Hx]].
    + apply before_insert. rewrite <- Hl. now apply IH.
    + apply before_new.
      apply (Permutation_in _ (Permutation_sym (insertionSort_Permutation l))) in Hx.
      rewrite Hl in Hx. apply in_app_or in Hx as [Hx|Hx]; [assumption|].
      rewrite Forall_forall in Hback. now apply Hback in Hx.
Qed.

(** An array whose neighbours are in order is left as it is. *)
Lemma insertionSort_fixed l :
  Sorted in_order l -> insertionSort cmp l = l.
Proof.
  induction l as [|x l IH] using rev_ind; intros Hs; [reflexivity|].
  destruct (insertionSort_snoc l x) as (front & back & Hl & -> & Hback & _).
  rewrite (IH (Sorted_app_l _ _ _ Hs)) in Hl.
  destruct back as [|q back] using rev_ind.
  - rewrite app_nil_r in Hl. now subst.
  - clear IHback. exfalso.
    rewrite app_assoc in Hl. subst l.
    apply Sorted_last_snoc in Hs.
    apply Forall_app in Hback as [_ Hq]. inversion Hq; subst. contradiction.
Qed.

(** If no pair of elements is out of order both ways, the neighbours of
    the result are in order. *)
Lemma insertionSort_Sorted l :
  (forall q x, In q l -> In x l -> cmp q x = Gt -> in_order x q) ->
  Sorted in_order (insertionSort cmp l).
Proof.
  induction l as [|x l IH] using rev_ind; intros Hflip; [constructor|].
  destruct (insertionSort_snoc l x) as (front & back & Hl & -> & Hback & Hfront).
  assert (IH' : Sorted in_order (insertionSort cmp l)).
  { apply IH. intros q y Hq Hy. apply Hflip; apply in_or_app; now left. }
  rewrite Hl in IH'. apply Sorted_middle; [assumption|assumption|].
  intros q b ->. inversion Hback; subst.
  apply Hflip; [| apply in_or_app; right; now left | assumption].
  apply in_or_app. left.
  apply (Permutation_in _ (insertionSort_Permutation l)).
  rewrite Hl. apply in_or_app. right. now left.
Qed.

Lemma insertionSort_StronglySorted l :
  consistent_on cmp l -> StronglySorted in_order (insertionSort cmp l).
Proof.
  intros [Hanti Htrans].
  apply (Sorted_StronglySorted_on in_order (fun x => In x l)).
  - intros x y z Hx Hy Hz. now apply Htrans.
  - apply Forall_forall. intros x Hx.
    now apply (Permutation_in _ (insertionSort_Permutation l)).
  - apply insertionSort_Sorted. intros q x Hq Hx Hgt.
    rewrite (Hanti q x Hq Hx), Hgt. discriminate.
Qed.

End Sort.

Lemma insert_natural {A B} (f : A -> B) cmpA cmpB element placed :
  (forall x y, cmpB (f x) (f y) = cmpA x y) ->
  insert cmpB (f element) (map f placed) = map f (insert cmpA element placed).
Proof.
  intros Hf. induction placed as [|tmp placed IH]; simpl; [reflexivity|].
  rewrite Hf. destruct (cmpA tmp element); simpl; try reflexivity.
  now rewrite IH.
Qed.

Lemma insertionSort_natural {A B} (f : A -> B) cmpA cmpB l :
  (forall x y, cmpB (f x) (f y) = cmpA x y) ->
  insertionSort cmpB (map f l) = map f (insertionSort cmpA l).
Proof.
  intros Hf. unfold insertionSort. rewrite map_rev. f_equal.
  change (@nil B) with (map f (@nil A)). generalize (@nil A) as placed.
  induction l as [|x l IH]; intros placed; simpl; [reflexivity|].
  rewrite (insert_natural f cmpA cmpB) by assumption. apply IH.
Qed.

(** The reference engine is an engine. *)
Definition insertionEngine : SortEngine := {|
  sort_by := @insertionSort;
  sort_by_Permutation := @insertionSort_Permutation;
  sort_by_sorted := @insertionSort_StronglySorted;
  sort_by_stable :=
    fun A cmp l _ x y Hb He =>
      insertionSort_stable cmp l x y Hb
        (fun Hgt => eq_ind Eq (fun c => match c with Gt => False | _ => True end)
                           I Gt (eq_trans (eq_sym He) Hgt));
  sort_by_natural := @insertionSort_natural
|}.

Section Engine.
Context {engine : SortEngine} {A : Type} (cmp : A -> A -> comparison).

(** On a consistent comparison every engine returns what the reference
    engine returns. *)
Lemma sort_by_reference l :
  NoDup l -> consistent_on cmp l -> sort_by cmp l = insertionSort cmp l.
Proof.
  intros Hnd Hc.
  apply (stable_sorted_unique cmp l); try assumption.
  - apply sort_by_Permutation.
  - apply insertionSort_Permutation.
  - now apply sort_by_sorted.
  - now apply insertionSort_StronglySorted.
  - now apply sort_by_stable.
  - intros x y Hb He. apply insertionSort_stable; [assumption|]. congruence.
Qed.

Lemma sort_by_nil : sort_by cmp [] = [].
Proof. apply Permutation_nil, Permutation_sym, sort_by_Permutation. Qed.

Lemma sort_by_singleton x : sort_by cmp [x] = [x].
Proof. apply Permutation_length_1_inv, Permutation_sym, sort_by_Permutation. Qed.

End Engine.

End SortFacts.

(** ** Values: truthiness and strict equality *)
Module ValueFacts.
Local Open Scope list_scope.

Lemma number_strict_eq_refl x :
  is_zero x || is_nan x = false -> Number.strict_eq x x = true.
Proof.
  destruct x as [s|s| |s m e]; simpl; intros H; try discriminate.
  - destruct s; reflexivity.
  - unfold Number.strict_eq, SFeqb, SFcompare.
    rewrite Z.compare_refl, Pos.compare_cont_refl. destruct s; reflexivity.
Qed.

Lemma number_strict_eq_eq x y :
  is_zero y || is_nan y = false -> Number.strict_eq x y = true -> x = y.
Proof.
  unfold Number.strict_eq, SFeqb.
  destruct x as [sx|sx| |sx mx ex], y as [sy|sy| |sy my ey]; simpl;
    intros Hy H; try discriminate;
    try (destruct sx, sy; (reflexivity || discriminate)).
  destruct sx, sy; try discriminate;
      destruct (Z.compare ex ey) eqn:He; try discriminate;
      apply Z.compare_eq in He; subst;
      destruct (Pos.compare_cont Eq mx my) eqn:Hm; try discriminate;
      apply Pos.compare_eq in Hm; subst; reflexivity.
Qed.

Lemma truthy_self_equal x : ToBoolean x = true -> IsStrictlyEqual x x = true.
Proof.
  destruct x as [| |b|n|s]; simpl; intros H; try discriminate.
  - apply Bool.eqb_reflx.
  - apply number_strict_eq_refl. now apply negb_true_iff.
  - apply String.eqb_refl.
Qed.

Lemma strict_eq_eq p x :
  ToBoolean x = true -> IsStrictlyEqual p x = true -> p = x.
Proof.
  destruct p as [| |b|n|s], x as [| |b'|n'|s']; simpl; intros Hx H;
    try discriminate; try reflexivity.
  - apply Bool.eqb_prop in H. now subst.
  - f_equal. apply number_strict_eq_eq; [now apply negb_true_iff | assumption].
  - apply String.eqb_eq in H. now subst.
Qed.

(** Among truthy values, a strictly equal predecessor is an equal one. *)
Lemma seen_In seen x :
  ToBoolean x = true ->
  existsb (fun p => IsStrictlyEqual p x) seen = true <-> In x seen.
Proof.
  intros Hx. rewrite existsb_exists. split.
  - intros (p & Hp & He). apply strict_eq_eq in He; [now subst | assumption].
  - intros Hin. exists x. split; [assumption | now apply truthy_self_equal].
Qed.

Lemma firstOccurrences_In seen rest x :
  In x (firstOccurrences seen rest) -> In x rest.
Proof.
  revert seen. induction rest as [|y rest IH]; intros seen; simpl; [auto|].
  destruct (existsb _ seen); simpl; intros H.
  - right. now apply (IH _ H).
  - destruct H as [H|H]; [now left | right; now apply (IH _ H)].
Qed.

Lemma firstOccurrences_complete seen rest x :
  Forall (fun v => ToBoolean v = true) rest ->
  In x rest -> In x seen \/ In x (firstOccurrences seen rest).
Proof.
  revert seen. induction rest as [|y rest IH]; intros seen Ht Hin; simpl in *;
    [contradiction|].
  inversion Ht as [|? ? Hy Ht']; subst.
  assert (Hcase : In x (seen ++ [y]) \/ In x (firstOccurrences (seen ++ [y]) rest)).
  { destruct Hin as [->|Hin]; [left; apply in_or_app; right; now left|].
    now apply IH. }
  destruct (existsb _ seen) eqn:Hs.
  - apply seen_In in Hs; [|assumption].
    destruct Hcase as [Hc|Hc]; [|now right].
    apply in_app_or in Hc as [Hc|[->|[]]]; now left.
  - destruct Hcase as [Hc|Hc]; [|right; now right].
    apply in_app_or in Hc as [Hc|[->|[]]]; [now left | right; now left].
Qed.

Lemma firstOccurrences_NoDup seen rest :
  Forall (fun v => ToBoolean v = true) rest ->
  NoDup (firstOccurrences seen rest)
  /\ forall x, In x (firstOccurrences seen rest) -> ~ In x seen.
Proof.
  revert seen. induction rest as [|y rest IH]; intros seen Ht; simpl.
  - split; [constructor | intros x []].
  - inversion Ht as [|? ? Hy Ht']; subst.
    destruct (IH (seen ++ [y]) Ht') as [Hnd Hdis].
    assert (Hout : forall x, In x (firstOccurrences (seen ++ [y]) rest) ->
                             ~ In x seen /\ x <> y).
    { intros x Hx. specialize (Hdis x Hx). split.
      - intros Hs. apply Hdis, in_or_app. now left.
      - intros ->. apply Hdis, in_or_app. right. now left. }
    destruct (existsb _ seen) eqn:Hs.
    + split; [assumption|]. intros x Hx. now apply Hout.
    + split.
      * constructor; [|assumption]. intros Hin. now apply Hout in Hin as [_ Hne].
      * intros x [<-|Hx].
        -- intros Hin. apply (seen_In seen y Hy) in Hin. congruence.
        -- now apply Hout.
Qed.

End ValueFacts.

(** ** The passes of [sanitizeRowValues] *)
Section SanitizeFacts.
Context {collator : Collator} {engine : SortEngine}.
Local Open Scope list_scope.
Import ArrayFacts ListFacts SortFacts ValueFacts NumberFacts.

#[local] Abbreviation truthy := (fun v : value => ToBoolean v = true).

Lemma dropFalsy_filter l : dropFalsy l = filter ToBoolean l.
Proof. apply filter_from_pointwise. Qed.

Lemma dropFalsy_truthy l : Forall truthy (dropFalsy l).
Proof.
  rewrite dropFalsy_filter, Forall_forall. intros v Hv.
  now apply filter_In in Hv.
Qed.

Lemma dropFalsy_fixed l : Forall truthy l -> dropFalsy l = l.
Proof.
  rewrite dropFalsy_filter. induction 1 as [|v l Hv _ IH]; simpl;
    [reflexivity | now rewrite Hv, IH].
Qed.

Lemma dropRepeats_from pre rest :
  Forall truthy rest ->
  filter_from
    (fun item index array => Z.eqb (Array_indexOf array item) (Z.of_nat index))
    (pre ++ rest) (List.length pre) rest
  = firstOccurrences pre rest.
Proof.
  revert pre. induction rest as [|x rest IH]; intros pre Ht; [reflexivity|].
  inversion Ht as [|? ? Hx Ht']; subst.
  assert (Hnext :
    filter_from
      (fun item index array => Z.eqb (Array_indexOf array item) (Z.of_nat index))
      (pre ++ x :: rest) (S (List.length pre)) rest
    = firstOccurrences (pre ++ [x]) rest).
  { rewrite <- (IH (pre ++ [x]) Ht'), <- app_assoc, length_app. simpl.
    now rewrite Nat.add_1_r. }
  cbn [filter_from firstOccurrences]. rewrite Hnext. unfold Array_indexOf.
  destruct (existsb (fun p => IsStrictlyEqual p x) pre) eqn:Hs.
  - pose proof (indexOf_from_hit 0 pre (x :: rest) x Hs) as Hr. simpl in Hr.
    destruct (Z.eqb_spec (indexOf_from 0 (pre ++ x :: rest) x)
                         (Z.of_nat (List.length pre))); [lia | reflexivity].
  - rewrite (indexOf_from_skip 0 pre (x :: rest) x Hs). simpl.
    now rewrite (truthy_self_equal x Hx), Z.eqb_refl.
Qed.

(** The second pass of the source is the pass of its description. *)
Lemma dropRepeats_firstOccurrences l :
  Forall truthy l -> dropRepeats l = firstOccurrences [] l.
Proof. intros Ht. exact (dropRepeats_from [] l Ht). Qed.

Lemma dropRepeats_In l x :
  Forall truthy l -> In x (dropRepeats l) <-> In x l.
Proof.
  intros Ht. rewrite dropRepeats_firstOccurrences by assumption. split.
  - apply firstOccurrences_In.
  - intros Hin.
    destruct (firstOccurrences_complete [] l x Ht Hin) as [[]|H]; assumption.
Qed.

Lemma dropRepeats_NoDup l : Forall truthy l -> NoDup (dropRepeats l).
Proof.
  intros Ht. rewrite dropRepeats_firstOccurrences by assumption.
  now apply firstOccurrences_NoDup.
Qed.

Lemma firstOccurrences_fixed seen l :
  Forall truthy l -> NoDup l -> (forall x, In x l -> ~ In x seen) ->
  firstOccurrences seen l = l.
Proof.
  revert seen. induction l as [|x l IH]; intros seen Ht Hnd Hdis;
    [reflexivity|].
  inversion Ht as [|? ? Hx Ht']; subst. inversion Hnd as [|? ? Hnx Hnd']; subst.
  simpl. destruct (existsb _ seen) eqn:Hs.
  - apply (seen_In seen x Hx) in Hs. exfalso. apply (Hdis x); [now left | assumption].
  - f_equal. apply IH; try assumption.
    intros y Hy Hin. apply in_app_or in Hin as [Hin|[->|[]]].
    + apply (Hdis y); [now right | assumption].
    + contradiction.
Qed.

Lemma dropRepeats_fixed l :
  Forall truthy l -> NoDup l -> dropRepeats l = l.
Proof.
  intros Ht Hnd. rewrite dropRepeats_firstOccurrences by assumption.
  apply firstOccurrences_fixed; auto.
Qed.

End SanitizeFacts.

(** ** The comparator *)
Section ComparatorFacts.
Context {collator : Collator} {engine : SortEngine}.
Local Open Scope list_scope.
Local Open Scope Z_scope.
Import NumberFacts ValueFacts.

Lemma compareFn_numbers a b :
  compareFn (VNumber a) (VNumber b) = Number.sub a b.
Proof. reflexivity. Qed.

Lemma compareFn_strings a b :
  compareFn (VString a) (VString b) = of_Z (localeCompare a b).
Proof. reflexivity. Qed.

Lemma compareFn_mixed u v :
  typeof u <> typeof v -> compareFn u v = of_Z 0.
Proof.
  destruct u, v; simpl; intros H; try reflexivity; congruence.
Qed.

Lemma SortCompare_strings a b :
  SortCompare compareFn (VString a) (VString b) = (localeCompare a b ?= 0).
Proof. simpl. rewrite compareFn_strings. apply of_Z_sgn. Qed.

Lemma SortCompare_numbers a b :
  SortCompare compareFn (VNumber a) (VNumber b) = sgn (Number.sub a b).
Proof. reflexivity. Qed.

(** No pair is out of order both ways. *)
Lemma SortCompare_flip q x :
  SortCompare compareFn q x = Gt -> in_order compareFn x q.
Proof.
  unfold in_order.
  destruct q as [| |bq|nq|sq], x as [| |bx|nx|sx];
    try (simpl; intros H; discriminate); try (simpl; intros _; discriminate).
  - rewrite !SortCompare_numbers. apply sub_Gt_flip.
  - rewrite !SortCompare_strings. intros H.
    apply Z.compare_gt_iff in H.
    pose proof (localeCompare_antisym sq sx) as Ha.
    intros Hc. apply Z.compare_gt_iff in Hc. lia.
Qed.

Lemma compare_defined a b :
  is_nan a = false -> is_nan b = false -> exists c, Number.compare a b = Some c.
Proof.
  unfold Number.compare.
  destruct a, b; simpl; intros Ha Hb; try discriminate; eexists; reflexivity.
Qed.

Lemma in_order_ascending u v :
  ToBoolean u = true -> ToBoolean v = true ->
  well_formed u = true -> well_formed v = true ->
  in_order compareFn u v -> ascending u v.
Proof.
  unfold in_order.
  destruct u as [| |bu|a|su], v as [| |bv|b|sv]; simpl ascending; auto.
  - simpl ToBoolean. simpl well_formed. intros Ha Hb Wa Wb H.
    apply negb_true_iff, orb_false_elim in Ha as [_ Ha].
    apply negb_true_iff, orb_false_elim in Hb as [_ Hb].
    destruct (compare_defined a b Ha Hb) as [c Hc].
    rewrite SortCompare_numbers, (sub_sgn_compare a b c Wa Wb Hc) in H.
    unfold Number.le. rewrite Hc. destruct c; auto. congruence.
  - intros _ _ _ _ H. rewrite SortCompare_strings in H.
    destruct (Z.compare_spec (localeCompare su sv) 0); try lia. congruence.
Qed.

Lemma ext_compare_trans x y z :
  ext_compare x y <> Gt -> ext_compare y z <> Gt -> ext_compare x z <> Gt.
Proof.
  destruct x as [|x|], y as [|y|], z as [|z|]; simpl; try congruence.
  intros H1 H2 H3. apply Z.compare_gt_iff in H3.
  destruct (Z.compare_spec x y); destruct (Z.compare_spec y z);
    try congruence; lia.
Qed.

Lemma le_not_Gt a b :
  Number.le a b <->
  exists x y, key a = Some x /\ key b = Some y /\ ext_compare x y <> Gt.
Proof.
  unfold Number.le, Number.compare. split.
  - destruct (key a) as [x|], (key b) as [y|]; intros [H|H];
      try discriminate; exists x, y; repeat split; congruence.
  - intros (x & y & -> & -> & H).
    destruct (ext_compare x y); auto. congruence.
Qed.

Lemma le_trans a b c : Number.le a b -> Number.le b c -> Number.le a c.
Proof.
  rewrite !le_not_Gt.
  intros (x & y & Hx & Hy & H1) (y' & z & Hy' & Hz & H2).
  rewrite Hy in Hy'. inversion Hy'; subst y'.
  exists x, z. repeat split; auto. now apply (ext_compare_trans x y z).
Qed.

(** Within one type the order is transitive. *)
Lemma ascending_trans_numbers x y z :
  isNumber x = true -> isNumber y = true -> isNumber z = true ->
  ascending x y -> ascending y z -> ascending x z.
Proof.
  destruct x, y, z; simpl; try discriminate. intros _ _ _. apply le_trans.
Qed.

Lemma ascending_trans_strings x y z :
  isString x = true -> isString y = true -> isString z = true ->
  ascending x y -> ascending y z -> ascending x z.
Proof.
  destruct x, y, z; simpl; try discriminate. intros _ _ _.
  apply localeCompare_trans.
Qed.

Lemma ext_compare_antisym x y : ext_compare y x = CompOpp (ext_compare x y).
Proof.
  destruct x as [|x|], y as [|y|]; simpl; try reflexivity.
  apply Z.compare_antisym.
Qed.

Lemma compare_antisym a b c :
  Number.compare a b = Some c -> Number.compare b a = Some (CompOpp c).
Proof.
  unfold Number.compare.
  destruct (key a) as [x|], (key b) as [y|]; try discriminate.
  intros H. inversion H; subst. now rewrite ext_compare_antisym.
Qed.

(** Two doubles in ascending order both ways are one double. *)
Lemma le_antisym a b :
  is_double a = true -> is_double b = true ->
  is_zero b || is_nan b = false ->
  Number.le a b -> Number.le b a -> a = b.
Proof.
  intros Wa Wb Hb Hab Hba.
  assert (Heq : Number.compare a b = Some Eq).
  { destruct Hab as [Hab|Hab]; [|assumption].
    apply compare_antisym in Hab. simpl in Hab.
    destruct Hba as [Hba|Hba]; congruence. }
  rewrite (compare_SFcompare a b Wa Wb) in Heq.
  apply number_strict_eq_eq; [assumption|].
  unfold Number.strict_eq, SFeqb. now rewrite Heq.
Qed.


(** Swapping the arguments reverses the sign. *)
Lemma compareFn_antisym a b :
  well_formed a = true -> well_formed b = true ->
  sgn (compareFn b a) = CompOpp (sgn (compareFn a b)).
Proof.
  intros Ha Hb.
  destruct a as [| |ba|x|sa], b as [| |bb|y|sb]; try reflexivity.
  - rewrite !compareFn_numbers. simpl in Ha, Hb.
    destruct (is_nan x) eqn:Nx;
      [destruct x; try discriminate; destruct y; reflexivity|].
    destruct (is_nan y) eqn:Ny;
      [destruct y; try discriminate; destruct x; reflexivity|].
    destruct (compare_defined x y Nx Ny) as [c Hc].
    rewrite (sub_sgn_compare x y c Ha Hb Hc).
    apply sub_sgn_compare; try assumption. now apply compare_antisym.
  - rewrite !compareFn_strings, !of_Z_sgn.
    pose proof (localeCompare_antisym sa sb) as Hanti.
    destruct (Z.compare_spec (localeCompare sa sb) 0);
      destruct (Z.compare_spec (localeCompare sb sa) 0); simpl;
      try reflexivity; lia.
Qed.

Lemma SortCompare_antisym a b :
  well_formed a = true -> well_formed b = true ->
  SortCompare compareFn b a = CompOpp (SortCompare compareFn a b).
Proof.
  intros Ha Hb.
  destruct a as [| |ba|x|sa] eqn:Ea, b as [| |bb|y|sb] eqn:Eb;
    try reflexivity;
    unfold SortCompare; rewrite <- ?Ea, <- ?Eb;
    apply compareFn_antisym; subst; assumption.
Qed.

Lemma ascending_in_order u v :
  ToBoolean u = true -> ToBoolean v = true ->
  well_formed u = true -> well_formed v = true ->
  typeof u = typeof v ->
  ascending u v -> in_order compareFn u v.
Proof.
  unfold in_order.
  destruct u as [| |bu|a|su], v as [| |bv|b|sv];
    intros Tu Tv Wu Wv Hty Hasc; simpl in Tu, Tv, Hty;
    try discriminate Tu; try discriminate Tv; try discriminate Hty.
  - simpl. intros H. discriminate H.
  - simpl in Wu, Wv, Hasc. rewrite SortCompare_numbers.
    destruct Hasc as [Hc|Hc]; rewrite (sub_sgn_compare a b _ Wu Wv Hc);
      discriminate.
  - simpl in Hasc. rewrite SortCompare_strings.
    destruct (Z.compare_spec (localeCompare su sv) 0); try lia; discriminate.
Qed.

(** On numbers, and on strings, the comparator is consistent. *)
Lemma consistent_numbers l :
  Forall (fun v => ToBoolean v = true) l ->
  Forall (fun v => well_formed v = true) l ->
  Forall (fun v => isNumber v = true) l ->
  consistent_on (SortCompare compareFn) l.
Proof.
  rewrite !Forall_forall. intros Ht Hw Hn. split.
  - intros x y Hx Hy. apply SortCompare_antisym; auto.
  - intros x y z Hx Hy Hz Hxy Hyz.
    assert (Hty : forall u v, In u l -> In v l -> typeof u = typeof v).
    { intros u v Hu Hv. pose proof (Hn u Hu) as Nu. pose proof (Hn v Hv) as Nv.
      unfold isNumber in Nu, Nv. apply String.eqb_eq in Nu, Nv. congruence. }
    apply ascending_in_order; auto.
    apply (ascending_trans_numbers x y z); auto;
      apply in_order_ascending; auto.
Qed.

Lemma consistent_strings l :
  Forall (fun v => isString v = true) l ->
  consistent_on (SortCompare compareFn) l.
Proof.
  rewrite Forall_forall. intros Hs.
  assert (Hstr : forall v, In v l -> exists s, v = VString s).
  { intros v Hv. specialize (Hs v Hv). destruct v; try discriminate. eauto. }
  split.
  - intros x y Hx Hy.
    destruct (Hstr x Hx) as [sx ->], (Hstr y Hy) as [sy ->].
    now apply SortCompare_antisym.
  - intros x y z Hx Hy Hz.
    destruct (Hstr x Hx) as [sx ->], (Hstr y Hy) as [sy ->],
             (Hstr z Hz) as [sz ->].
    rewrite !SortCompare_strings. intros Hxy Hyz Hxz.
    apply Z.compare_gt_iff in Hxz.
    pose proof (localeCompare_trans sx sy sz) as Htr.
    destruct (Z.compare_spec (localeCompare sx sy) 0);
      destruct (Z.compare_spec (localeCompare sy sz) 0); try congruence; lia.
Qed.

(** So it is where no two values share a type: every pair compares
    equal. *)
Lemma consistent_distinct_types l :
  Forall (fun v => ToBoolean v = true) l ->
  Forall (fun v => well_formed v = true) l ->
  (forall x y, In x l -> In y l -> x <> y -> typeof x <> typeof y) ->
  consistent_on (SortCompare compareFn) l
  /\ (forall x y, In x l -> In y l -> SortCompare compareFn x y = Eq).
Proof.
  rewrite !Forall_forall. intros Ht Hw Hty.
  assert (Hanti : forall x y, In x l -> In y l ->
            SortCompare compareFn y x = CompOpp (SortCompare compareFn x y)).
  { intros x y Hx Hy. apply SortCompare_antisym; auto. }
  assert (Heq : forall x y, In x l -> In y l -> SortCompare compareFn x y = Eq).
  { intros x y Hx Hy.
    destruct (SortCompare compareFn x y) eqn:Hc; [reflexivity| |].
    - assert (Hne : x <> y).
      { intros ->. pose proof (Hanti y y Hy Hy) as H. rewrite Hc in H.
        discriminate H. }
      pose proof (Hty x y Hx Hy Hne) as Hd.
      pose proof (Ht x Hx) as Tx. pose proof (Ht y Hy) as Ty.
      unfold SortCompare in Hc. rewrite (compareFn_mixed x y Hd) in Hc.
      destruct x, y; simpl in Tx, Ty; discriminate.
    - assert (Hne : x <> y).
      { intros ->. pose proof (Hanti y y Hy Hy) as H. rewrite Hc in H.
        discriminate H. }
      pose proof (Hty x y Hx Hy Hne) as Hd.
      pose proof (Ht x Hx) as Tx. pose proof (Ht y Hy) as Ty.
      unfold SortCompare in Hc. rewrite (compareFn_mixed x y Hd) in Hc.
      destruct x, y; simpl in Tx, Ty; discriminate. }
  split; [split|]; auto.
  intros x y z Hx Hy Hz _ _. rewrite (Heq x z Hx Hz). discriminate.
Qed.

End ComparatorFacts.

(** ** The sanitized sequence *)
Section OutputFacts.
Context {collator : Collator} {engine : SortEngine}.
Local Open Scope list_scope.
Import ArrayFacts ListFacts SortFacts ValueFacts.

Lemma sanitizeRowValues_Some raw :
  sanitizeRowValues (Some raw) = Some (sanitized raw).
Proof. reflexivity. Qed.

Lemma sanitizeRowValues_nil : sanitizeRowValues (Some []) = Some [].
Proof.
  unfold sanitizeRowValues, Array_sort. simpl.
  unfold dropFalsy, dropRepeats, Array_filter. simpl. now rewrite sort_by_nil.
Qed.

Lemma derive_nil columnId :
  optionsOf columnId (sanitizeRowValues (Some [])) = [].
Proof. now rewrite sanitizeRowValues_nil. Qed.

Lemma sanitized_Permutation raw :
  Permutation (sanitized raw) (dropRepeats (dropFalsy raw)).
Proof. apply sort_by_Permutation. Qed.

Lemma sanitized_In raw v :
  In v (sanitized raw) <-> In v raw /\ ToBoolean v = true.
Proof.
  rewrite <- filter_In, <- dropFalsy_filter,
    <- (dropRepeats_In (dropFalsy raw) v (dropFalsy_truthy raw)).
  split; apply Permutation_in;
    [apply sanitized_Permutation | apply Permutation_sym, sanitized_Permutation].
Qed.

Lemma sanitized_truthy raw :
  Forall (fun v => ToBoolean v = true) (sanitized raw).
Proof. rewrite Forall_forall. intros v Hv. now apply sanitized_In in Hv. Qed.

Lemma sanitized_NoDup raw : NoDup (sanitized raw).
Proof.
  apply (Permutation_NoDup (Permutation_sym (sanitized_Permutation raw))).
  apply dropRepeats_NoDup, dropFalsy_truthy.
Qed.

Lemma sanitized_all (P : value -> bool) raw :
  Forall (fun v => P v = true) raw -> Forall (fun v => P v = true) (sanitized raw).
Proof.
  rewrite !Forall_forall. intros H v Hv. apply sanitized_In in Hv as [Hv _].
  now apply H.
Qed.

Lemma survivors_NoDup raw : NoDup (dropRepeats (dropFalsy raw)).
Proof. apply dropRepeats_NoDup, dropFalsy_truthy. Qed.

Lemma survivors_In raw v :
  In v (dropRepeats (dropFalsy raw)) <-> In v raw /\ ToBoolean v = true.
Proof.
  rewrite (dropRepeats_In (dropFalsy raw) v (dropFalsy_truthy raw)).
  rewrite dropFalsy_filter. apply filter_In.
Qed.

Lemma survivors_all (P : value -> bool) raw :
  Forall (fun v => P v = true) raw ->
  Forall (fun v => P v = true) (dropRepeats (dropFalsy raw)).
Proof.
  rewrite !Forall_forall. intros H v Hv. apply survivors_In in Hv as [Hv _].
  now apply H.
Qed.

Lemma survivors_truthy raw :
  Forall (fun v => ToBoolean v = true) (dropRepeats (dropFalsy raw)).
Proof. rewrite Forall_forall. intros v Hv. now apply survivors_In in Hv. Qed.

(** Where the comparator is consistent on the surviving values, the
    result is the one of the reference engine, whatever the engine. *)
Lemma sanitized_reference raw :
  consistent_on (SortCompare compareFn) (dropRepeats (dropFalsy raw)) ->
  sanitized raw
  = insertionSort (SortCompare compareFn) (dropRepeats (dropFalsy raw)).
Proof.
  intros Hc. unfold sanitized, Array_sort.
  apply sort_by_reference; [apply survivors_NoDup | assumption].
Qed.

Lemma consistent_on_members {A} (cmp : A -> A -> comparison) l l' :
  (forall x, In x l' -> In x l) -> consistent_on cmp l -> consistent_on cmp l'.
Proof.
  intros Hsub [Hanti Htrans]. split.
  - intros x y Hx Hy. apply Hanti; auto.
  - intros x y z Hx Hy Hz. apply Htrans; auto.
Qed.

Lemma sanitized_Sorted raw :
  consistent_on (SortCompare compareFn) (dropRepeats (dropFalsy raw)) ->
  Sorted (in_order compareFn) (sanitized raw).
Proof.
  intros Hc. apply StronglySorted_Sorted.
  exact (sort_by_sorted _ _ _ Hc).
Qed.

(** Sanitizing a sanitized sequence changes nothing, where the
    comparator is consistent on the surviving values. *)
Lemma sanitized_idempotent raw :
  consistent_on (SortCompare compareFn) (dropRepeats (dropFalsy raw)) ->
  sanitized (sanitized raw) = sanitized raw.
Proof.
  intros Hc.
  assert (Hsurv : dropRepeats (dropFalsy (sanitized raw)) = sanitized raw).
  { rewrite (dropFalsy_fixed _ (sanitized_truthy raw)).
    apply (dropRepeats_fixed _ (sanitized_truthy raw) (sanitized_NoDup raw)). }
  rewrite sanitized_reference; rewrite Hsurv.
  - apply insertionSort_fixed. now apply sanitized_Sorted.
  - apply (consistent_on_members _ (dropRepeats (dropFalsy raw))); [|assumption].
    intros x Hx. now apply (Permutation_in _ (sanitized_Permutation raw)).
Qed.

Lemma sanitized_ascending raw :
  consistent_on (SortCompare compareFn) (dropRepeats (dropFalsy raw)) ->
  Forall (fun v => well_formed v = true) raw ->
  Sorted ascending (sanitized raw).
Proof.
  intros Hc Hwf.
  apply (Sorted_weaken (in_order compareFn) ascending
           (fun v => ToBoolean v = true /\ well_formed v = true)).
  - intros x y [Tx Wx] [Ty Wy]. now apply in_order_ascending.
  - pose proof (sanitized_truthy raw) as Ht.
    pose proof (sanitized_all well_formed raw Hwf) as Hw.
    rewrite Forall_forall in *. intros v Hv. split; auto.
  - now apply sanitized_Sorted.
Qed.

Lemma strings_well_formed strs :
  Forall (fun v => well_formed v = true) (map VString strs).
Proof.
  apply Forall_forall. intros v Hv. apply in_map_iff in Hv as (s & <- & _).
  reflexivity.
Qed.

Lemma strings_isString strs :
  Forall (fun v => isString v = true) (map VString strs).
Proof.
  apply Forall_forall. intros v Hv. apply in_map_iff in Hv as (s & <- & _).
  reflexivity.
Qed.

Lemma survivors_consistent_numbers raw :
  Forall (fun v => well_formed v = true) raw ->
  Forall (fun v => isNumber v = true) raw ->
  consistent_on (SortCompare compareFn) (dropRepeats (dropFalsy raw)).
Proof.
  intros Hwf Hnum. apply consistent_numbers.
  - apply survivors_truthy.
  - now apply survivors_all.
  - now apply survivors_all.
Qed.

Lemma survivors_consistent_strings strs :
  consistent_on (SortCompare compareFn)
                (dropRepeats (dropFalsy (map VString strs))).
Proof. apply consistent_strings, survivors_all, strings_isString. Qed.

Lemma sanitized_sorted_numbers raw :
  Forall (fun v => well_formed v = true) raw ->
  Forall (fun v => isNumber v = true) raw ->
  StronglySorted ascending (sanitized raw).
Proof.
  intros Hwf Hnum.
  apply (Sorted_StronglySorted_on ascending (fun v => isNumber v = true)).
  - exact ascending_trans_numbers.
  - now apply sanitized_all.
  - apply sanitized_ascending; [|assumption].
    now apply survivors_consistent_numbers.
Qed.

Lemma sanitized_sorted_strings strs :
  StronglySorted ascending (sanitized (map VString strs)).
Proof.
  apply (Sorted_StronglySorted_on ascending (fun v => isString v = true)).
  - exact ascending_trans_strings.
  - apply sanitized_all, strings_isString.
  - apply sanitized_ascending; [|apply strings_well_formed].
    apply survivors_consistent_strings.
Qed.

Lemma derive_values columnId raw :
  map value_ (derive columnId raw) = map ToString (sanitized raw).
Proof. apply map_from_project. reflexivity. Qed.

Lemma derive_labels columnId raw :
  map label (derive columnId raw) = map ToString (sanitized raw).
Proof. apply map_from_project. reflexivity. Qed.

Lemma derive_length columnId raw :
  List.length (derive columnId raw) = List.length (sanitized raw).
Proof. apply map_from_length. Qed.

End OutputFacts.

(** ** A collation to run the definitions with *)
Section CodeUnitOrder.
Import OrdersEx.

Lemma String_compare_refl a : String_as_OT.compare a a = Eq.
Proof.
  destruct (String_as_OT.compare_spec a a) as [_|H|H]; [reflexivity| |];
    exfalso; exact (StrictOrder_Irreflexive a H).
Qed.

Lemma codeUnitCompare_antisym a b :
  Z.sgn (codeUnitCompare b a) = - Z.sgn (codeUnitCompare a b).
Proof.
  unfold codeUnitCompare.
  destruct (String_as_OT.compare_spec a b) as [->|H|H].
  - rewrite String_compare_refl. reflexivity.
  - destruct (String_as_OT.compare_spec b a) as [->|H'|H']; try reflexivity;
      exfalso.
    + exact (StrictOrder_Irreflexive _ H).
    + exact (StrictOrder_Irreflexive _ (StrictOrder_Transitive _ _ _ H H')).
  - destruct (String_as_OT.compare_spec b a) as [->|H'|H']; try reflexivity;
      exfalso.
    + exact (StrictOrder_Irreflexive _ H).
    + exact (StrictOrder_Irreflexive _ (StrictOrder_Transitive _ _ _ H H')).
Qed.

Lemma codeUnitCompare_trans a b c :
  codeUnitCompare a b <= 0 -> codeUnitCompare b c <= 0 ->
  codeUnitCompare a c <= 0.
Proof.
  unfold codeUnitCompare.
  destruct (String_as_OT.compare_spec a b) as [->|H|H]; [auto| |lia].
  destruct (String_as_OT.compare_spec b c) as [->|H'|H']; [| |lia]; intros _ _.
  - unfold String_as_OT.lt in H. rewrite H. lia.
  - pose proof (StrictOrder_Transitive _ _ _ H H') as Hac.
    unfold String_as_OT.lt in Hac. rewrite Hac. lia.
Qed.
End CodeUnitOrder.

#[export] Instance codeUnitCollator : Collator := {|
  localeCompare := codeUnitCompare;
  localeCompare_antisym := codeUnitCompare_antisym;
  localeCompare_trans := codeUnitCompare_trans
|}.

(** ** Row values of any kind *)
Section AnyFacts.
Context {collator : Collator} {engine : SortEngine}.
Local Open Scope list_scope.
Import ArrayFacts.

Lemma filter_from_map {A B} (f : A -> B)
      (callbackA : A -> nat -> list A -> bool)
      (callbackB : B -> nat -> list B -> bool) (array : list A) :
  (forall x i, callbackB (f x) i (map f array) = callbackA x i array) ->
  forall index rest,
    filter_from callbackB (map f array) index (map f rest)
    = map f (filter_from callbackA array index rest).
Proof.
  intros H index rest. revert index.
  induction rest as [|x rest IH]; intros index; simpl; [reflexivity|].
  rewrite H, IH. destruct (callbackA x index array); reflexivity.
Qed.

Lemma filter_from_sub {A} (callback : A -> nat -> list A -> bool) array v :
  forall index rest, In v (filter_from callback array index rest) -> In v rest.
Proof.
  intros index rest. revert index.
  induction rest as [|x rest IH]; intros index; simpl; [auto|].
  destruct (callback x index array); simpl; intros H.
  - destruct H as [H|H]; [now left | right; now apply (IH (S index))].
  - right. now apply (IH (S index)).
Qed.

Lemma filter_from_length {A} (callback : A -> nat -> list A -> bool) array :
  forall index rest,
    (List.length (filter_from callback array index rest) <= List.length rest)%nat.
Proof.
  intros index rest. revert index.
  induction rest as [|x rest IH]; intros index; simpl; [lia|].
  specialize (IH (S index)). destruct (callback x index array); simpl; lia.
Qed.

Lemma filter_from_keep {A} (callback : A -> nat -> list A -> bool) array v post :
  forall pre index,
    callback v (index + List.length pre)%nat array = true ->
    In v (filter_from callback array index (pre ++ v :: post)).
Proof.
  induction pre as [|p pre IH]; intros index H; simpl in *.
  - rewrite Nat.add_0_r in H. rewrite H. now left.
  - assert (Hin : In v (filter_from callback array (S index) (pre ++ v :: post))).
    { apply IH. now replace (S index + List.length pre)%nat
                      with (index + S (List.length pre))%nat by lia. }
    destruct (callback p index array); [now right | assumption].
Qed.

Lemma any_indexOf_from index rest item :
  Any.indexOf_from index (map Any.Primitive rest) (Any.Primitive item)
  = indexOf_from index rest item.
Proof.
  revert index. induction rest as [|x rest IH]; intros index; simpl;
    [reflexivity|].
  rewrite IH. reflexivity.
Qed.

Lemma any_dropFalsy l :
  Any.dropFalsy (map Any.Primitive l) = map Any.Primitive (dropFalsy l).
Proof.
  unfold Any.dropFalsy, dropFalsy, Array_filter.
  apply (filter_from_map Any.Primitive). reflexivity.
Qed.

Lemma any_dropRepeats l :
  Any.dropRepeats (map Any.Primitive l) = map Any.Primitive (dropRepeats l).
Proof.
  unfold Any.dropRepeats, dropRepeats, Array_filter.
  apply (filter_from_map Any.Primitive). intros x i.
  unfold Any.Array_indexOf, Array_indexOf. now rewrite any_indexOf_from.
Qed.

Lemma any_SortCompare x y :
  Any.SortCompare Any.compareFn (Any.Primitive x) (Any.Primitive y)
  = SortCompare compareFn x y.
Proof. destruct x, y; reflexivity. Qed.

Lemma any_sanitizeRowValues l :
  Any.sanitizeRowValues (Some (map Any.Primitive l))
  = Some (map Any.Primitive (sanitized l)).
Proof.
  unfold Any.sanitizeRowValues. simpl.
  rewrite any_dropFalsy, any_dropRepeats. f_equal.
  apply sort_by_natural, any_SortCompare.
Qed.

Lemma any_map_from heap columnId l :
  forall index,
    Any.map_from (Any.toOption heap (Any.Primitive columnId)) index
                 (map Any.Primitive l)
    = Any.Normal (map_from (toOption columnId) index l).
Proof.
  induction l as [|x l IH]; intros index; simpl; [reflexivity|].
  rewrite IH. reflexivity.
Qed.

Lemma any_map_from_Throw heap columnId l :
  forall index,
    Any.map_from (Any.toOption heap (Any.Primitive columnId)) index l
    = Any.Throw
    <-> exists v, In v l /\ Any.String_ heap v = Any.Throw.
Proof.
  induction l as [|x l IH]; intros index; simpl.
  - split; [discriminate | intros (v & [] & _)].
  - unfold Any.toOption at 1. simpl.
    destruct (Any.String_ heap x) as [text|] eqn:Hx; simpl.
    + specialize (IH (S index)).
      destruct (Any.map_from _ (S index) l) as [out|]; simpl.
      * split; [discriminate|].
        intros (v & [<-|Hv] & Hthrow); [congruence|].
        assert (Hout : Any.Normal out = Any.Throw) by (apply IH; now exists v).
        discriminate Hout.
      * split; [|reflexivity]. intros _.
        destruct IH as [IH _]. destruct (IH eq_refl) as (v & Hv & Hthrow).
        exists v. split; [now right | assumption].
    + split; [|reflexivity]. intros _. exists x. split; [now left | assumption].
Qed.

Lemma any_map_from_length {A B} (callback : A -> nat -> Any.completion B) l :
  forall index out,
    Any.map_from callback index l = Any.Normal out ->
    List.length out = List.length l.
Proof.
  induction l as [|x l IH]; intros index out; simpl.
  - intros H. inversion H. reflexivity.
  - destruct (callback x index); simpl; [|discriminate].
    destruct (Any.map_from callback (S index) l) eqn:Hm; simpl; [|discriminate].
    intros H. inversion H; subst. simpl. f_equal. now apply (IH (S index)).
Qed.

Lemma any_sanitized_sub raw v :
  In v (sort_by (Any.SortCompare Any.compareFn)
                (Any.dropRepeats (Any.dropFalsy raw))) ->
  In v raw.
Proof.
  intros H. apply (Permutation_in _ (sort_by_Permutation _ _ _)) in H.
  unfold Any.dropRepeats, Array_filter in H. apply filter_from_sub in H.
  unfold Any.dropFalsy, Array_filter in H. now apply filter_from_sub in H.
Qed.

Lemma any_sanitized_length raw :
  (List.length (sort_by (Any.SortCompare Any.compareFn)
                        (Any.dropRepeats (Any.dropFalsy raw)))
   <= List.length raw)%nat.
Proof.
  rewrite (Permutation_length (sort_by_Permutation _ _ _)).
  unfold Any.dropRepeats, Any.dropFalsy, Array_filter.
  etransitivity; apply filter_from_length.
Qed.

Lemma any_indexOf_first v post :
  Any.IsStrictlyEqual v v = true ->
  forall pre index,
    existsb (fun p => Any.IsStrictlyEqual p v) pre = false ->
    Any.indexOf_from index (pre ++ v :: post) v
    = Z.of_nat (index + List.length pre).
Proof.
  intros Hv. induction pre as [|p pre IH]; intros index H; simpl in *.
  - rewrite Hv. f_equal. lia.
  - apply orb_false_elim in H as [Hp Hpre]. rewrite Hp, IH by assumption.
    f_equal. lia.
Qed.

Lemma any_first_occurrence v l :
  Any.IsStrictlyEqual v v = true ->
  (forall x, Any.IsStrictlyEqual x v = true -> x = v) ->
  In v l ->
  exists pre post,
    l = pre ++ v :: post
    /\ existsb (fun p => Any.IsStrictlyEqual p v) pre = false.
Proof.
  intros Hv Hid. induction l as [|a l IH]; intros Hin; [destruct Hin|].
  destruct (Any.IsStrictlyEqual a v) eqn:Ha.
  - apply Hid in Ha. subst a. now exists [], l.
  - destruct Hin as [->|Hin]; [congruence|].
    destruct (IH Hin) as (pre & post & -> & Hpre).
    exists (a :: pre), post. split; [reflexivity|]. simpl. now rewrite Ha.
Qed.

Lemma any_thrower_survives heap v raw :
  In v raw -> Any.String_ heap v = Any.Throw ->
  In v (Any.dropRepeats (Any.dropFalsy raw)).
Proof.
  intros Hin Hthrow.
  assert (Hv : Any.ToBoolean v = true
               /\ Any.IsStrictlyEqual v v = true
               /\ forall x, Any.IsStrictlyEqual x v = true -> x = v).
  { destruct v; simpl in Hthrow; try discriminate;
      (split; [reflexivity | split; [simpl; apply Nat.eqb_refl|]]);
      intros x Hx; destruct x; simpl in Hx; try discriminate;
      apply Nat.eqb_eq in Hx; now subst. }
  destruct Hv as (Ht & Hrefl & Hid).
  assert (Hf : In v (Any.dropFalsy raw)).
  { unfold Any.dropFalsy, Array_filter. rewrite filter_from_pointwise.
    apply filter_In. now split. }
  destruct (any_first_occurrence v _ Hrefl Hid Hf) as (pre & post & Heq & Hpre).
  unfold Any.dropRepeats, Array_filter. rewrite Heq.
  apply filter_from_keep. apply Z.eqb_eq. unfold Any.Array_indexOf.
  now rewrite any_indexOf_first.
Qed.

Lemma any_String_Throw heap v :
  Any.String_ heap v = Any.Throw
  <-> exists ref,
        (v = Any.Object ref \/ v = Any.Function ref)
        /\ Any.toPrimitive_string heap ref = None.
Proof.
  split.
  - destruct v as [p|z|key description|ref|ref]; simpl; try discriminate;
      destruct (Any.toPrimitive_string heap ref) eqn:Href; try discriminate;
      intros _; exists ref; auto.
  - intros (ref & [->| ->] & Href); simpl; now rewrite Href.
Qed.

Lemma any_derive_Throw heap columnId raw :
  Any.derive heap (Any.Primitive columnId) raw = Any.Throw
  <-> exists v, In v raw /\ Any.String_ heap v = Any.Throw.
Proof.
  unfold Any.derive, Any.sanitizeRowValues. simpl. unfold Any.Array_map.
  rewrite any_map_from_Throw. split; intros (v & Hv & Hthrow); exists v;
    (split; [|assumption]).
  - now apply any_sanitized_sub.
  - apply (Permutation_in _ (Permutation_sym (sort_by_Permutation _ _ _))).
    now apply (any_thrower_survives heap).
Qed.

End AnyFacts.

(** * The claims *)
Section Claims.
Context {collator : Collator} {engine : SortEngine}.
Local Open Scope list_scope.
Local Open Scope Z_scope.
Import ArrayFacts ListFacts SortFacts ValueFacts NumberFacts.

Lemma append_nonempty_l a b : a <> "" -> (a ++ b)%string <> "".
Proof. destruct a; simpl; [congruence | discriminate]. Qed.

Lemma append_nonempty_r a b : b <> "" -> (a ++ b)%string <> "".
Proof. destruct a; simpl; [auto | discriminate]. Qed.

Lemma dec_nonempty z : dec z <> "".
Proof.
  unfold dec, NilZero.string_of_uint.
  destruct (N.to_uint (Z.to_N z)); simpl; discriminate.
Qed.

Lemma positive_toString_nonempty m e : positive_toString m e <> "".
Proof.
  unfold positive_toString.
  destruct (shortest 17 m e (floor_log10 m e) 1) as [s0 p0].
  destruct (strip_zeros 400 s0 p0) as [s p].
  pose proof (dec_nonempty s) as Hds.
  repeat match goal with
         | |- context [if ?b then _ else _] => destruct b
         end;
    first [ now apply append_nonempty_l
          | apply append_nonempty_r; discriminate
          | discriminate ].
Qed.

(** A truthy value never has the empty string form. *)
Lemma ToString_nonempty v : ToBoolean v = true -> ToString v <> "".
Proof.
  destruct v as [| |[]|[s|[]| |s m e]|str]; simpl; try discriminate.
  - intros _. apply append_nonempty_r, positive_toString_nonempty.
  - intros H Hs. subst. discriminate.
Qed.

Lemma falsy_cases v :
  ToBoolean v = false <->
  v = VNull \/ v = VUndefined \/ v = VString "" \/ v = VBoolean false
  \/ (exists s, v = VNumber (S754_zero s)) \/ v = VNumber NaN.
Proof.
  split.
  - destruct v as [| |[]|[s|s| |s m e]|[|c s]]; simpl; intros H;
      try discriminate; auto 6.
    right; right; right; right; left. now exists s.
  - intros [->|[->|[->|[->|[[s ->]| ->]]]]]; reflexivity.
Qed.

(** C1.  The first pass removes exactly the falsy values: a value is in
    the filtered sequence iff it is in the input and truthy; the falsy
    values are null, undefined, the empty string, the zeros, NaN and
    false.  Every derived Option carries the string form of a truthy
    input value, and every truthy input value has its Option.  No Option
    has the empty string as value, and the string form of a falsy value
    is the value of an Option only if a truthy input value has the same
    string form. *)
Theorem C1_falsy_values_removed (columnId : value) (raw : list value) :
  (forall v, In v (dropFalsy raw) <-> In v raw /\ ToBoolean v = true)
  /\ (forall v, ToBoolean v = false <->
        v = VNull \/ v = VUndefined \/ v = VString "" \/ v = VBoolean false
        \/ (exists s, v = VNumber (S754_zero s)) \/ v = VNumber NaN)
  /\ ToBoolean (VNumber (of_Z 0)) = false
  /\ (forall v, In v (sanitized raw) <-> In v raw /\ ToBoolean v = true)
  /\ (forall o, In o (derive columnId raw) ->
        exists v, In v raw /\ ToBoolean v = true
                  /\ label o = ToString v /\ value_ o = ToString v)
  /\ (forall v, In v raw -> ToBoolean v = true ->
        exists o, In o (derive columnId raw) /\ value_ o = ToString v)
  /\ (forall o, In o (derive columnId raw) -> value_ o <> "")
  /\ (forall v, ToBoolean v = false ->
        (forall w, In w raw -> ToBoolean w = true -> ToString w <> ToString v) ->
        ~ In (ToString v) (map value_ (derive columnId raw))).
Proof.
  assert (Hfrom : forall o, In o (derive columnId raw) ->
            exists v, In v raw /\ ToBoolean v = true
                      /\ label o = ToString v /\ value_ o = ToString v).
  { intros o Ho. unfold derive in Ho. rewrite sanitizeRowValues_Some in Ho.
    apply map_from_In in Ho as (v & n & Hn & ->).
    apply nth_error_In, sanitized_In in Hn as [Hin Ht].
    exists v. repeat split; assumption. }
  split; [|split; [|split; [|split; [|split; [|split; [|split]]]]]].
  - intros v. rewrite dropFalsy_filter. apply filter_In.
  - exact falsy_cases.
  - reflexivity.
  - intros v. apply sanitized_In.
  - exact Hfrom.
  - intros v Hin Ht.
    assert (Hs : In v (sanitized raw)) by (apply sanitized_In; now split).
    apply In_nth_error in Hs as [n Hn].
    exists (toOption columnId v n). split; [|reflexivity].
    unfold derive. rewrite sanitizeRowValues_Some.
    apply map_from_In. exists v, n. split; [assumption | reflexivity].
  - intros o Ho. destruct (Hfrom o Ho) as (v & _ & Ht & _ & ->).
    now apply ToString_nonempty.
  - intros v Hv Hother Hin. apply in_map_iff in Hin as (o & Ho & Hin).
    destruct (Hfrom o Hin) as (w & Hw & Ht & _ & Hval).
    apply (Hother w Hw Ht). congruence.
Qed.

Lemma firstOccurrences_snoc seen front v :
  firstOccurrences seen (front ++ [v])
  = firstOccurrences seen front
    ++ (if existsb (fun p => IsStrictlyEqual p v) (seen ++ front)
        then [] else [v]).
Proof.
  revert seen. induction front as [|y front IH]; intros seen; simpl.
  - rewrite app_nil_r. destruct (existsb _ seen); reflexivity.
  - rewrite IH, <- app_assoc. simpl.
    destruct (existsb (fun p => IsStrictlyEqual p y) seen); reflexivity.
Qed.

(** C2.  The second pass keeps the first occurrence of each value and
    compares with strict equality, before any string conversion: a
    value is kept exactly when no value strictly equal to it stands
    further left, which is the pass [firstOccurrences] describes.  The
    sanitized sequence is a rearrangement of these first occurrences,
    and the Options are as many.  When truthy input values with the same
    string form are always strictly equal, that is, when the first
    occurrences have distinct string forms, no two derived Options have
    the same value. *)
Theorem C2_first_occurrences_kept (columnId : value) (raw : list value) :
  dropRepeats (dropFalsy raw) = firstOccurrences [] (dropFalsy raw)
  /\ (forall front v,
        Forall (fun x => ToBoolean x = true) (front ++ [v]) ->
        dropRepeats (front ++ [v])
        = dropRepeats front
          ++ (if existsb (fun p => IsStrictlyEqual p v) front then [] else [v]))
  /\ NoDup (dropRepeats (dropFalsy raw))
  /\ (forall v, In v (dropRepeats (dropFalsy raw)) <-> In v (dropFalsy raw))
  /\ dropRepeats [VNumber (of_Z 1); VString "1"; VNumber (of_Z 1)]
     = [VNumber (of_Z 1); VString "1"]
  /\ (exists out,
        sanitizeRowValues (Some raw) = Some out
        /\ Permutation out (firstOccurrences [] (filter ToBoolean raw)))
  /\ Permutation (map value_ (derive columnId raw))
                 (map ToString (firstOccurrences [] (filter ToBoolean raw)))
  /\ List.length (derive columnId raw)
     = List.length (firstOccurrences [] (filter ToBoolean raw))
  /\ ((forall x y, In x raw -> In y raw ->
                   ToBoolean x = true -> ToBoolean y = true ->
                   ToString x = ToString y -> IsStrictlyEqual x y = true) ->
      NoDup (map value_ (derive columnId raw)))
  /\ (NoDup (map ToString (firstOccurrences [] (filter ToBoolean raw))) ->
      NoDup (map value_ (derive columnId raw))).
Proof.
  pose proof (dropFalsy_truthy raw) as Ht.
  assert (Hperm : Permutation (sanitized raw)
                              (firstOccurrences [] (filter ToBoolean raw))).
  { rewrite <- dropFalsy_filter, <- dropRepeats_firstOccurrences by assumption.
    apply sanitized_Permutation. }
  split; [|split; [|split; [|split; [|split; [|split; [|split; [|split;
    [|split]]]]]]]].
  - now apply dropRepeats_firstOccurrences.
  - intros front v Hall.
    rewrite !dropRepeats_firstOccurrences;
      [| now apply Forall_app in Hall | assumption].
    apply (firstOccurrences_snoc [] front v).
  - now apply dropRepeats_NoDup.
  - intros v. now apply dropRepeats_In.
  - reflexivity.
  - exists (sanitized raw). split; [reflexivity | assumption].
  - rewrite derive_values. now apply Permutation_map.
  - rewrite derive_length. now apply Permutation_length.
  - intros Hinj. rewrite derive_values.
    apply NoDup_map_NoDup_ForallPairs; [|apply sanitized_NoDup].
    intros x y Hx Hy Heq.
    apply sanitized_In in Hx as [Hx Tx]. apply sanitized_In in Hy as [Hy Ty].
    apply strict_eq_eq; [assumption|]. now apply Hinj.
  - intros Hnd. rewrite derive_values.
    apply (Permutation_NoDup (l := map ToString
                                      (firstOccurrences [] (filter ToBoolean raw))));
      [|assumption].
    now apply Permutation_sym, Permutation_map.
Qed.

Lemma insertionSort_pair {A} (cmp : A -> A -> comparison) x y :
  insertionSort cmp [x; y]
  = match cmp x y with Gt => [y; x] | _ => [x; y] end.
Proof.
  unfold insertionSort. simpl. destruct (cmp x y); reflexivity.
Qed.

(** C3.  The comparator orders two numbers by value, which on doubles
    is the library's [SFcompare], and two strings by [localeCompare].  A sequence of numbers comes out in ascending
    numeric order and a sequence of strings in ascending collation
    order; [3, 1, 2] gives "1", "2", "3", and "banana", "apple" gives
    "apple", "banana" in a locale that puts "apple" first. *)
Theorem C3_sorted_within_type (columnId : value) :
  (forall a b c, is_double a = true -> is_double b = true ->
     Number.compare a b = Some c ->
     SortCompare compareFn (VNumber a) (VNumber b) = c)
  /\ (forall a b c, is_double a = true -> is_double b = true ->
        SFcompare a b = Some c ->
        SortCompare compareFn (VNumber a) (VNumber b) = c)
  /\ (forall a b,
        SortCompare compareFn (VString a) (VString b) = (localeCompare a b ?= 0))
  /\ (forall raw,
        Forall (fun v => well_formed v = true) raw ->
        Forall (fun v => isNumber v = true) raw ->
        StronglySorted ascending (sanitized raw))
  /\ (forall strs, StronglySorted ascending (sanitized (map VString strs)))
  /\ map value_ (derive columnId [VNumber (of_Z 3); VNumber (of_Z 1); VNumber (of_Z 2)])
     = ["1"; "2"; "3"]
  /\ (0 < localeCompare "banana" "apple" ->
      map value_ (derive columnId [VString "banana"; VString "apple"])
      = ["apple"; "banana"]).
Proof.
  split; [|split; [|split; [|split; [|split; [|split]]]]].
  - intros a b c Ha Hb Hc. rewrite SortCompare_numbers.
    now apply sub_sgn_compare.
  - intros a b c Ha Hb Hc. rewrite SortCompare_numbers.
    apply sub_sgn_compare; try assumption.
    now rewrite compare_SFcompare.
  - exact SortCompare_strings.
  - intros raw Hwf Hnum. now apply sanitized_sorted_numbers.
  - intros strs. apply sanitized_sorted_strings.
  - rewrite derive_values, sanitized_reference.
    + vm_compute. reflexivity.
    + apply survivors_consistent_numbers; repeat constructor.
  - intros Hlocale. rewrite derive_values.
    change [VString "banana"; VString "apple"]
      with (map VString ["banana"; "apple"]).
    rewrite sanitized_reference by apply survivors_consistent_strings.
    change (dropRepeats (dropFalsy (map VString ["banana"; "apple"])))
      with [VString "banana"; VString "apple"].
    rewrite insertionSort_pair, SortCompare_strings.
    apply Z.compare_gt_iff in Hlocale. rewrite Hlocale. reflexivity.
Qed.

(** C4, as amended.  Across types the comparator answers zero.  Where
    that leaves it consistent on the surviving values (all numbers, all
    strings, or no two values of one type) the sort is stable and every
    two values of one type end up in ascending order; where no two
    values share a type the sequence is returned as it is.  As soon as
    two values of one type that are not equal meet a value of another
    type, the comparator is not consistent and the order is the
    engine's; the result is still a rearrangement of the surviving
    values. *)
Theorem C4_mixed_types (raw : list value)
  (Hwf : Forall (fun v => well_formed v = true) raw) :
  (forall u v, typeof u <> typeof v -> sgn (compareFn u v) = Eq)
  /\ Permutation (sanitized raw) (dropRepeats (dropFalsy raw))
  /\ (consistent_on (SortCompare compareFn) (dropRepeats (dropFalsy raw)) ->
      (forall u v, before u v (sanitized raw) ->
                   typeof u = typeof v -> ascending u v)
      /\ (forall x y, before x y (dropRepeats (dropFalsy raw)) ->
                      SortCompare compareFn x y = Eq ->
                      before x y (sanitized raw)))
  /\ (Forall (fun v => isNumber v = true) raw
      \/ Forall (fun v => isString v = true) raw
      \/ (forall x y, In x raw -> In y raw -> ToBoolean x = true ->
                      ToBoolean y = true -> x <> y -> typeof x <> typeof y) ->
      consistent_on (SortCompare compareFn) (dropRepeats (dropFalsy raw)))
  /\ ((forall x y, In x raw -> In y raw -> ToBoolean x = true ->
                   ToBoolean y = true -> x <> y -> typeof x <> typeof y) ->
      sanitized raw = dropRepeats (dropFalsy raw))
  /\ (forall a b c,
        In a raw -> In b raw -> In c raw ->
        ToBoolean a = true -> ToBoolean b = true -> ToBoolean c = true ->
        typeof a = typeof b -> typeof c <> typeof a ->
        SortCompare compareFn a b = Lt ->
        ~ consistent_on (SortCompare compareFn) (dropRepeats (dropFalsy raw))).
Proof.
  pose proof (survivors_truthy raw) as Ht.
  pose proof (survivors_all well_formed raw Hwf) as Hw.
  assert (Hdistinct :
    (forall x y, In x raw -> In y raw -> ToBoolean x = true ->
                 ToBoolean y = true -> x <> y -> typeof x <> typeof y) ->
    consistent_on (SortCompare compareFn) (dropRepeats (dropFalsy raw))
    /\ (forall x y, In x (dropRepeats (dropFalsy raw)) ->
                    In y (dropRepeats (dropFalsy raw)) ->
                    SortCompare compareFn x y = Eq)).
  { intros Hty. apply consistent_distinct_types; try assumption.
    intros x y Hx Hy. apply survivors_In in Hx as [Hx Tx].
    apply survivors_In in Hy as [Hy Ty]. now apply Hty. }
  split; [|split; [|split; [|split; [|split]]]].
  - intros u v H. rewrite (compareFn_mixed u v H). reflexivity.
  - apply sanitized_Permutation.
  - intros Hc. split.
    + intros u v Hb Hty.
      pose proof (sort_by_sorted _ _ _ Hc) as Hs.
      apply (StronglySorted_before _ _ _ _ Hs) in Hb as Hord.
      apply before_In in Hb as [Hu Hv].
      apply sanitized_In in Hu as [Hu Tu]. apply sanitized_In in Hv as [Hv Tv].
      rewrite Forall_forall in Hwf. apply in_order_ascending; auto.
    + intros x y Hb He. now apply (sort_by_stable _ _ _ Hc).
  - intros [Hnum|[Hstr|Hty]].
    + now apply survivors_consistent_numbers.
    + now apply consistent_strings, survivors_all.
    + now apply Hdistinct.
  - intros Hty. destruct (Hdistinct Hty) as [Hc Heq].
    rewrite (sanitized_reference raw Hc). apply insertionSort_fixed.
    assert (Hall : forall l, (forall x, In x l -> In x (dropRepeats (dropFalsy raw))) ->
                             Sorted (fun u v => SortCompare compareFn u v <> Gt) l).
    { induction l as [|a l IH]; intros Hsub; constructor.
      - apply IH. intros x Hx. apply Hsub. now right.
      - destruct l as [|b l]; constructor.
        rewrite (Heq a b); [discriminate | apply Hsub; now left
                           | apply Hsub; right; now left]. }
    apply Hall. auto.
  - intros a b c Ha Hb Hc Ta Tb Tc Hab Hca Hlt [Hanti Htrans].
    assert (Sa : In a (dropRepeats (dropFalsy raw))) by (apply survivors_In; auto).
    assert (Sb : In b (dropRepeats (dropFalsy raw))) by (apply survivors_In; auto).
    assert (Sc : In c (dropRepeats (dropFalsy raw))) by (apply survivors_In; auto).
    assert (Hmixed : forall u v, ToBoolean u = true -> ToBoolean v = true ->
                       typeof u <> typeof v -> SortCompare compareFn u v = Eq).
    { intros u v Tu Tv Hd. unfold SortCompare. rewrite (compareFn_mixed u v Hd).
      destruct u, v; simpl in Tu, Tv; try discriminate; reflexivity. }
    apply (Htrans b c a Sb Sc Sa).
    + rewrite Hmixed; [discriminate|assumption|assumption|congruence].
    + rewrite Hmixed; [discriminate|assumption|assumption|assumption].
    + rewrite (Hanti a b Sa Sb), Hlt. reflexivity.
Qed.

Lemma rowValues_external ctx ext :
  externalRowValues ctx = Some ext -> ext <> [] ->
  rowValues ctx = sanitizeRowValues (Some ext).
Proof.
  intros Hext Hne. unfold rowValues. rewrite Hext.
  destruct ext as [|v ext]; [contradiction | reflexivity].
Qed.

(** C5.  A non-empty [filterOptions] alone decides the Options: they are
    the derivation of that list, whatever the rows hold; ["b", "a", "b"]
    gives the Options "a" and "b", in that order, in a locale that puts
    "a" first. *)
Theorem C5_external_options_take_precedence
  (ctx : TableFilterContext) (ext : list value)
  (Hext : externalRowValues ctx = Some ext) (Hne : ext <> []) :
  TableSelectFilter_options ctx = derive (column_id ctx) ext
  /\ (forall rows',
        TableSelectFilter_options (with_rows ctx rows')
        = TableSelectFilter_options ctx)
  /\ (ext = [VString "b"; VString "a"; VString "b"] ->
      0 < localeCompare "b" "a" ->
      TableSelectFilter_options ctx
      = [ {| id := ToString (column_id ctx) ++ "-choice-0";
             label := "a"; value_ := "a" |};
          {| id := ToString (column_id ctx) ++ "-choice-1";
             label := "b"; value_ := "b" |} ]).
Proof.
  assert (Hopts : TableSelectFilter_options ctx = derive (column_id ctx) ext).
  { unfold TableSelectFilter_options, derive.
    now rewrite (rowValues_external ctx ext Hext Hne). }
  split; [exact Hopts | split].
  - intros rows'. rewrite Hopts.
    unfold TableSelectFilter_options, derive.
    now rewrite (rowValues_external (with_rows ctx rows') ext Hext Hne).
  - intros -> Hlocale. rewrite Hopts. unfold derive.
    rewrite sanitizeRowValues_Some.
    change [VString "b"; VString "a"; VString "b"]
      with (map VString ["b"; "a"; "b"]).
    rewrite sanitized_reference by apply survivors_consistent_strings.
    change (dropRepeats (dropFalsy (map VString ["b"; "a"; "b"])))
      with [VString "b"; VString "a"].
    rewrite insertionSort_pair, SortCompare_strings.
    apply Z.compare_gt_iff in Hlocale. rewrite Hlocale. reflexivity.
Qed.

Lemma index_texts :
  forallb (fun n => String.eqb (ToString (VNumber (of_nat n))) (dec (Z.of_nat n)))
          (seq 0 1000) = true.
Proof. vm_compute. reflexivity. Qed.

(** C7.  The value at position [index] of the sorted sequence becomes
    the Option at that position, with identifier
    [{column-id}-choice-{index}] and with its string form as label and
    as value; the index is written in decimal. *)
Theorem C7_projection (columnId : value) (raw : list value)
  (index : nat) (i : value)
  (Hi : nth_error (sanitized raw) index = Some i) :
  nth_error (derive columnId raw) index
  = Some {| id := ToString columnId ++ "-choice-"
                  ++ ToString (VNumber (of_nat index));
            label := ToString i;
            value_ := ToString i |}
  /\ List.length (derive columnId raw) = List.length (sanitized raw)
  /\ (forall n, (n < 1000)%nat ->
        ToString (VNumber (of_nat n)) = dec (Z.of_nat n)).
Proof.
  split; [|split].
  - unfold derive. rewrite sanitizeRowValues_Some. simpl optionsOf.
    unfold Array_map. now rewrite (map_from_nth_error _ _ 0%nat index i Hi).
  - apply derive_length.
  - intros n Hn. pose proof index_texts as H.
    rewrite forallb_forall in H. apply String.eqb_eq, H, in_seq. lia.
Qed.

(** C8.  On scalar raw values, whatever their kind, the derivation
    returns and signals no error, and gives no more Options than there
    are raw values; the empty sequence gives the empty Option list, and
    so does a missing array.  On the five kinds of [JS.value] the result
    is the Option list of [derive].  The derivation throws exactly when
    the input holds an object or a function whose conversion to a string
    throws; and the identifier's template literal refuses a symbol. *)
Theorem C8_total (heap : Any.Heap) (columnId : value) (raw : list Any.value)
  (Hscalar : forall ref,
      ~ In (Any.Object ref) raw /\ ~ In (Any.Function ref) raw) :
  (exists out,
      Any.derive heap (Any.Primitive columnId) raw = Any.Normal out
      /\ (List.length out <= List.length raw)%nat)
  /\ (forall id, Any.derive heap id [] = Any.Normal [])
  /\ (forall values,
        Any.derive heap (Any.Primitive columnId) (map Any.Primitive values)
        = Any.Normal (derive columnId values))
  /\ derive columnId [] = []
  /\ (forall any,
        Any.derive heap (Any.Primitive columnId) any = Any.Throw
        <-> exists ref,
              (In (Any.Object ref) any \/ In (Any.Function ref) any)
              /\ Any.toPrimitive_string heap ref = None)
  /\ (forall key description i index,
        Any.toOption heap (Any.Symbol key description) i index = Any.Throw)
  /\ Any.sanitizeRowValues None = None
  /\ (forall id, Any.optionsOf heap id None = Any.Normal [])
  /\ sanitizeRowValues None = None
  /\ optionsOf columnId None = []
  /\ (forall ctx,
        externalRowValues ctx = None -> rows ctx = None ->
        TableSelectFilter_options ctx = []).
Proof.
  split; [|split; [|split; [|split; [|split; [|split; [|split;
    [|split; [|split; [|split]]]]]]]]]; try reflexivity.
  - destruct (Any.derive heap (Any.Primitive columnId) raw) as [out|] eqn:Hd.
    + exists out. split; [reflexivity|].
      unfold Any.derive, Any.sanitizeRowValues in Hd. simpl in Hd.
      rewrite (any_map_from_length _ _ _ _ Hd). apply any_sanitized_length.
    + apply any_derive_Throw in Hd as (v & Hv & Hthrow).
      apply any_String_Throw in Hthrow as (ref & [->| ->] & _);
        destruct (Hscalar ref) as [Hobject Hfunction]; contradiction.
  - intros id0. unfold Any.derive, Any.sanitizeRowValues. simpl.
    unfold Any.dropFalsy, Any.dropRepeats, Array_filter. simpl.
    now rewrite sort_by_nil.
  - intros values. unfold Any.derive. rewrite any_sanitizeRowValues. simpl.
    unfold Any.Array_map. rewrite any_map_from. reflexivity.
  - apply derive_nil.
  - intros any. rewrite any_derive_Throw. split.
    + intros (v & Hv & Hthrow).
      apply any_String_Throw in Hthrow as (ref & [->| ->] & Href);
        exists ref; auto.
    + intros (ref & [Hin|Hin] & Href);
        [exists (Any.Object ref) | exists (Any.Function ref)];
        (split; [assumption|]); apply any_String_Throw; exists ref; auto.
  - intros ctx Hext Hrows. unfold TableSelectFilter_options, rowValues.
    rewrite Hext. unfold internalRowValues. rewrite Hrows.
    exact (derive_nil _).
Qed.

(** C9.  The component hands the form library no validation.  A submit
    hands the sink the chosen value or values when there are some and the
    empty string otherwise, a reset hands it the empty string; both then
    ask the surface to close.  A choice in the choice group reaches
    neither; there is no other outcome, and no event leaves an error
    behind.  In the library a submit without validators always runs the
    callback, one whose validators find an error never does. *)
Theorem C9_submit_and_reset
  (ctx : TableFilterContext) (state : FormikState)
  (c : Column) (Hcolumn : column ctx = Some c) (Hopen : setOpen ctx = true) :
  (config_validate (useFormik_config ctx) = None
   /\ config_validationSchema (useFormik_config ctx) = None)
  /\ (forall selection,
        (inputType ctx = VString "select" ->
         selection = values_selectFilter (state_values state)) ->
        (inputType ctx <> VString "select" ->
         selection = values_multiSelectFilter (state_values state)) ->
        snd (handle ctx state Submit)
        = [ SetFilterValue
              match selection with
              | FString (String _ _) | FArray (_ :: _) => selection
              | _ => FString ""
              end;
            SetOpen false ])
  /\ snd (handle ctx state Reset) = [SetFilterValue (FString ""); SetOpen false]
  /\ (forall item, snd (handle ctx state (Change item)) = [])
  /\ (forall ev,
        snd (handle ctx state ev) = []
        \/ exists v,
             snd (handle ctx state ev) = [SetFilterValue v; SetOpen false]
             /\ (v = FString ""
                 \/ v = values_selectFilter (state_values state)
                 \/ v = values_multiSelectFilter (state_values state)))
  /\ (forall ev, state_errors (fst (handle ctx state ev)) = [])
  /\ (forall config st,
        config_validate config = None ->
        config_validationSchema config = None ->
        snd (formik_handleSubmit config st)
        = config_onSubmit config (state_values st))
  /\ (forall config st,
        formik_validateForm config (state_values st) <> [] ->
        snd (formik_handleSubmit config st) = []).
Proof.
  assert (Hsubmit : forall selection,
            (inputType ctx = VString "select" ->
             selection = values_selectFilter (state_values state)) ->
            (inputType ctx <> VString "select" ->
             selection = values_multiSelectFilter (state_values state)) ->
            snd (handle ctx state Submit)
            = [ SetFilterValue
                  match selection with
                  | FString (String _ _) | FArray (_ :: _) => selection
                  | _ => FString ""
                  end;
                SetOpen false ]);
    [|assert (Hreset : snd (handle ctx state Reset)
                       = [SetFilterValue (FString ""); SetOpen false]);
      [|split; [split; reflexivity|];
        split; [exact Hsubmit|split; [exact Hreset|split;
          [reflexivity|split; [|split; [|split]]]]]]].
  - intros selection Hselect Hmulti. simpl.
    unfold onSubmit, column_setFilterValue, call_setOpen.
    rewrite Hcolumn, Hopen.
    assert (Hfield : field (state_values state) (fieldName ctx) = selection).
    { unfold fieldName.
      destruct (IsStrictlyEqual (inputType ctx) (VString "select")) eqn:He.
      - symmetry. apply Hselect.
        destruct (inputType ctx); try discriminate He.
        simpl in He. apply String.eqb_eq in He. now subst.
      - symmetry. apply Hmulti. intros Heq. rewrite Heq in He.
        simpl in He. discriminate He. }
    rewrite Hfield.
    destruct selection as [| |[|a s]|[|x l]]; reflexivity.
  - simpl. unfold onReset, column_setFilterValue, call_setOpen.
    now rewrite Hcolumn, Hopen.
  - intros [| |item]; [right|right|now left].
    + destruct (IsStrictlyEqual (inputType ctx) (VString "select")) eqn:He.
      * rewrite (Hsubmit (values_selectFilter (state_values state)));
          [|reflexivity|intros Hne; exfalso; apply Hne].
        -- eexists. split; [reflexivity|].
           destruct (values_selectFilter (state_values state))
             as [| |[|a s]|[|x l]]; auto.
        -- destruct (inputType ctx); try discriminate He.
           simpl in He. apply String.eqb_eq in He. now subst.
      * rewrite (Hsubmit (values_multiSelectFilter (state_values state)));
          [|intros Heq; rewrite Heq in He; discriminate He|reflexivity].
        eexists. split; [reflexivity|].
        destruct (values_multiSelectFilter (state_values state))
          as [| |[|a s]|[|x l]]; auto.
    + exists (FString ""). split; [exact Hreset | now left].
  - intros [| |item]; reflexivity.
  - intros config st Hv Hs. unfold formik_handleSubmit, formik_validateForm.
    rewrite Hv, Hs. reflexivity.
  - intros config st Herr. unfold formik_handleSubmit. simpl.
    destruct (formik_validateForm config (state_values st));
      [congruence | reflexivity].
Qed.

Lemma reinterpret_derive columnId raw :
  reinterpret (derive columnId raw)
  = map (fun v => VString (ToString v)) (sanitized raw).
Proof.
  unfold reinterpret.
  rewrite <- (map_map value_ VString), derive_values, map_map. reflexivity.
Qed.

Lemma strings_unchanged l :
  Forall (fun v => isString v = true) l ->
  map (fun v => VString (ToString v)) l = l.
Proof.
  induction 1 as [|v l Hv _ IH]; simpl; [reflexivity|].
  rewrite IH. destruct v; try discriminate. reflexivity.
Qed.

(** C6, as amended.  Where the comparator is consistent on the surviving
    values, as it is on numbers and on strings, the derivation is
    idempotent: sanitizing the sanitized sequence returns it, so the
    Options derived from it are the same.  Deriving again from the
    derived value strings gives the same set of value strings, and the
    same Option list when the raw values are strings; for other raw
    values the list can differ. *)
Theorem C6_idempotent_on_raw_values (columnId : value) (raw : list value) :
  (consistent_on (SortCompare compareFn) (dropRepeats (dropFalsy raw)) ->
   sanitizeRowValues (sanitizeRowValues (Some raw)) = sanitizeRowValues (Some raw)
   /\ derive columnId (sanitized raw) = derive columnId raw)
  /\ (Forall (fun v => well_formed v = true) raw ->
      Forall (fun v => isNumber v = true) raw ->
      derive columnId (sanitized raw) = derive columnId raw)
  /\ (forall strs,
        derive columnId (sanitized (map VString strs))
        = derive columnId (map VString strs))
  /\ (forall s,
        In s (map value_ (derive columnId (reinterpret (derive columnId raw))))
        <-> In s (map value_ (derive columnId raw)))
  /\ (forall strs,
        derive columnId (reinterpret (derive columnId (map VString strs)))
        = derive columnId (map VString strs)).
Proof.
  assert (Hfix : forall l,
            consistent_on (SortCompare compareFn) (dropRepeats (dropFalsy l)) ->
            derive columnId (sanitized l) = derive columnId l).
  { intros l Hc. unfold derive.
    now rewrite !sanitizeRowValues_Some, sanitized_idempotent. }
  split; [|split; [|split; [|split]]].
  - intros Hc. split; [|now apply Hfix].
    rewrite !sanitizeRowValues_Some. f_equal. now apply sanitized_idempotent.
  - intros Hwf Hnum. now apply Hfix, survivors_consistent_numbers.
  - intros strs. apply Hfix, survivors_consistent_strings.
  - intros s. rewrite !derive_values, reinterpret_derive, !in_map_iff. split.
    + intros (v & <- & Hv). apply sanitized_In in Hv as [Hv _].
      apply in_map_iff in Hv as (w & <- & Hw). now exists w.
    + intros (w & <- & Hw). exists (VString (ToString w)). split; [reflexivity|].
      apply sanitized_In. split.
      * apply in_map_iff. now exists w.
      * apply sanitized_In in Hw as [_ Hw]. simpl.
        apply negb_true_iff, String.eqb_neq. now apply ToString_nonempty.
  - intros strs. rewrite reinterpret_derive, strings_unchanged;
      [apply Hfix, survivors_consistent_strings|].
    apply sanitized_all, strings_isString.
Qed.

(** C10.  [isInvalid] holds exactly when [invalid] is true or the helper
    has type 'error'; [isValid] holds exactly when [invalid] is not true
    and the helper has type 'valid'; the two never hold together. *)
Theorem C10_validity_flags_exclusive
  (FormHelperProps : Type) (type : FormHelperProps -> option string)
  (invalid : option bool) (helper : option FormHelperProps) :
  (TextField.isInvalid FormHelperProps type invalid helper = true <->
   invalid = Some true
   \/ exists h, helper = Some h /\ type h = Some "error")
  /\ (TextField.isValid FormHelperProps type invalid helper = true <->
      invalid <> Some true
      /\ exists h, helper = Some h /\ type h = Some "valid")
  /\ ~ (TextField.isInvalid FormHelperProps type invalid helper = true
        /\ TextField.isValid FormHelperProps type invalid helper = true).
Proof.
  assert (Htype : forall t,
            TextField.helper_type_is FormHelperProps type helper t = true <->
            exists h, helper = Some h /\ type h = Some t).
  { intros t. unfold TextField.helper_type_is.
    destruct helper as [h|].
    - destruct (type h) as [ty|] eqn:Hty.
      + rewrite String.eqb_eq. split.
        * intros ->. now exists h.
        * intros (h' & Hh & Ht). inversion Hh; subst. congruence.
      + split; [discriminate|].
        intros (h' & Hh & Ht). inversion Hh; subst. congruence.
    - split; [discriminate|]. intros (h' & Hh & _). discriminate Hh. }
  split; [|split].
  - unfold TextField.isInvalid. destruct invalid as [[]|]; rewrite <- ?Htype;
      split; auto; intros [H|H]; auto; discriminate H.
  - unfold TextField.isValid. destruct invalid as [[]|]; rewrite <- ?Htype;
      split; try (intros [H1 H2]; auto; congruence); try discriminate;
      intros H; split; auto; discriminate.
  - intros [Hi Hv].
    unfold TextField.isInvalid, TextField.isValid in *.
    destruct invalid as [[]|]; try discriminate;
      apply Htype in Hi as (h & Hh & He); apply Htype in Hv as (h' & Hh' & Hv);
      rewrite Hh in Hh'; inversion Hh'; subst; rewrite He in Hv; discriminate.
Qed.

End Claims.

(** Examples run in the code-unit collation and on the reference
    engine. *)
Section ClaimExamples.
#[local] Existing Instance SortFacts.insertionEngine.
Local Open Scope list_scope.
Import ListFacts.

(** C2, on [2, "a", 2, null]: values with one string form are strictly
    equal there, and the value strings are distinct. *)
Lemma C2_witness :
  NoDup (map value_
           (derive (VString "status")
                   [VNumber (of_Z 2); VString "a"; VNumber (of_Z 2); VNull])).
Proof.
  destruct (C2_first_occurrences_kept (VString "status")
              [VNumber (of_Z 2); VString "a"; VNumber (of_Z 2); VNull])
    as (_ & _ & _ & _ & _ & _ & _ & _ & H & _).
  apply H. intros x y Hx Hy Tx Ty Heq.
  destruct Hx as [<-|[<-|[<-|[<-|[]]]]];
    destruct Hy as [<-|[<-|[<-|[<-|[]]]]];
    try discriminate Tx; try discriminate Ty;
    try (vm_compute; reflexivity);
    vm_compute in Heq; discriminate Heq.
Defined.

(** C3, in the code-unit collation. *)
Lemma C3_witness :
  map value_ (derive (VString "fruit") [VString "banana"; VString "apple"])
  = ["apple"; "banana"].
Proof.
  apply (C3_sorted_within_type (VString "fruit")).
  vm_compute. reflexivity.
Defined.

(** C4, on [3, 1, 2]: the values are numbers, the comparator is
    consistent on them, and they end up in ascending order. *)
Lemma C4_witness :
  consistent_on (SortCompare compareFn)
    (dropRepeats (dropFalsy [VNumber (of_Z 3); VNumber (of_Z 1); VNumber (of_Z 2)]))
  /\ (forall u v,
        before u v (sanitized [VNumber (of_Z 3); VNumber (of_Z 1);
                               VNumber (of_Z 2)]) ->
        typeof u = typeof v -> ascending u v).
Proof.
  assert (Hwf : Forall (fun v => well_formed v = true)
                       [VNumber (of_Z 3); VNumber (of_Z 1); VNumber (of_Z 2)])
    by (repeat constructor).
  destruct (C4_mixed_types
              [VNumber (of_Z 3); VNumber (of_Z 1); VNumber (of_Z 2)] Hwf)
    as (_ & _ & Hsorted & Hconsistent & _).
  assert (Hc : consistent_on (SortCompare compareFn)
                 (dropRepeats (dropFalsy [VNumber (of_Z 3); VNumber (of_Z 1);
                                          VNumber (of_Z 2)]))).
  { apply Hconsistent. left. repeat constructor. }
  split; [exact Hc | apply Hsorted, Hc].
Defined.

(** C4 as stated fails on its own example.  On [2, "a", 1] no engine
    keeps the pairs of different types in place and also brings 1 left
    of 2: 2 stands left of "a" and "a" left of 1.  The reference engine
    returns the sequence as it is. *)
Lemma C4_counterexample :
  sanitized [VNumber (of_Z 2); VString "a"; VNumber (of_Z 1)]
  = [VNumber (of_Z 2); VString "a"; VNumber (of_Z 1)]
  /\ forall (collator : Collator) (engine : SortEngine),
       ~ ((forall u v,
              before u v [VNumber (of_Z 2); VString "a"; VNumber (of_Z 1)] ->
              typeof u <> typeof v ->
              before u v (@sanitized collator engine
                            [VNumber (of_Z 2); VString "a"; VNumber (of_Z 1)]))
          /\ (forall u v,
                before u v (@sanitized collator engine
                              [VNumber (of_Z 2); VString "a"; VNumber (of_Z 1)]) ->
                typeof u = typeof v -> @ascending collator u v)).
Proof.
  split; [vm_compute; reflexivity|].
  intros collator engine [Hkeep Hasc].
  assert (H1 : before (VNumber (of_Z 2)) (VString "a")
                 (@sanitized collator engine
                    [VNumber (of_Z 2); VString "a"; VNumber (of_Z 1)])).
  { apply Hkeep; [|discriminate]. apply before_here. now left. }
  assert (H2 : before (VString "a") (VNumber (of_Z 1))
                 (@sanitized collator engine
                    [VNumber (of_Z 2); VString "a"; VNumber (of_Z 1)])).
  { apply Hkeep; [|discriminate]. apply before_later, before_here. now left. }
  assert (Hasc' : @ascending collator (VNumber (of_Z 2)) (VNumber (of_Z 1))).
  { apply Hasc; [|reflexivity].
    exact (before_trans _ _ _ _ (sanitized_NoDup _) H1 H2). }
  vm_compute in Hasc'. destruct Hasc' as [Hc|Hc]; discriminate Hc.
Qed.

(** C5, on a column whose options are "b", "a", "b" over two rows. *)
Lemma C5_witness :
  TableSelectFilter_options statusContext
  = [ {| id := "status-choice-0"; label := "a"; value_ := "a" |};
      {| id := "status-choice-1"; label := "b"; value_ := "b" |} ].
Proof.
  apply (C5_external_options_take_precedence statusContext
           [VString "b"; VString "a"; VString "b"]).
  - reflexivity.
  - discriminate.
  - reflexivity.
  - vm_compute. reflexivity.
Defined.

(** C6, on the numbers [3, 1, 3]. *)
Lemma C6_witness :
  derive (VString "size")
         (sanitized [VNumber (of_Z 3); VNumber (of_Z 1); VNumber (of_Z 3)])
  = derive (VString "size")
           [VNumber (of_Z 3); VNumber (of_Z 1); VNumber (of_Z 3)].
Proof.
  destruct (C6_idempotent_on_raw_values (VString "size")
              [VNumber (of_Z 3); VNumber (of_Z 1); VNumber (of_Z 3)])
    as (_ & Hnumbers & _).
  apply Hnumbers; repeat constructor.
Defined.

(** C6 as stated fails on [1, "1"], whatever the collation and the
    engine: the number and the string both survive and give two
    Options; their value strings, read as raw values, are one string
    twice and give a single Option. *)
Lemma C6_counterexample :
  List.length (derive (VString "size")
                 (reinterpret (derive (VString "size")
                                      [VNumber (of_Z 1); VString "1"]))) = 1%nat
  /\ List.length (derive (VString "size") [VNumber (of_Z 1); VString "1"]) = 2%nat
  /\ forall (collator : Collator) (engine : SortEngine),
       @derive collator engine (VString "size")
         (reinterpret (@derive collator engine (VString "size")
                               [VNumber (of_Z 1); VString "1"]))
       <> @derive collator engine (VString "size")
            [VNumber (of_Z 1); VString "1"].
Proof.
  split; [vm_compute; reflexivity|split; [vm_compute; reflexivity|]].
  intros collator engine H.
  apply (f_equal (@List.length _)) in H. rewrite !derive_length in H.
  rewrite !(Permutation_length (sanitized_Permutation _)) in H.
  rewrite reinterpret_derive in H.
  pose proof (sanitized_Permutation [VNumber (of_Z 1); VString "1"]) as P.
  assert (E : dropRepeats (dropFalsy [VNumber (of_Z 1); VString "1"])
              = [VNumber (of_Z 1); VString "1"]) by (vm_compute; reflexivity).
  rewrite E in P, H.
  apply Permutation_sym, Permutation_length_2_inv in P.
  destruct P as [P|P]; rewrite P in H; vm_compute in H; discriminate H.
Qed.

(** C7, on [3, 1, 2] at index 2. *)
Lemma C7_witness :
  nth_error (derive (VString "size")
                    [VNumber (of_Z 3); VNumber (of_Z 1); VNumber (of_Z 2)]) 2
  = Some {| id := "size-choice-2"; label := "3"; value_ := "3" |}.
Proof.
  apply (C7_projection (VString "size")
           [VNumber (of_Z 3); VNumber (of_Z 1); VNumber (of_Z 2)]
           2 (VNumber (of_Z 3))).
  vm_compute. reflexivity.
Defined.

(** C8, on a big integer, a symbol, a string and a big integer again,
    with a heap on which every conversion of an object throws. *)
Lemma C8_witness :
  exists out,
    Any.derive {| Any.toPrimitive_string := fun _ => None |}
               (Any.Primitive (VString "status"))
               [Any.BigInt 0; Any.Symbol 1 (Some "tag");
                Any.Primitive (VString "a"); Any.BigInt 12]
    = Any.Normal out
    /\ (List.length out <= 4)%nat.
Proof.
  assert (Hscalar :
            forall ref,
              ~ In (Any.Object ref)
                   [Any.BigInt 0; Any.Symbol 1 (Some "tag");
                    Any.Primitive (VString "a"); Any.BigInt 12]
              /\ ~ In (Any.Function ref)
                      [Any.BigInt 0; Any.Symbol 1 (Some "tag");
                       Any.Primitive (VString "a"); Any.BigInt 12]).
  { intros ref. split; simpl; intuition discriminate. }
  destruct (C8_total {| Any.toPrimitive_string := fun _ => None |}
                     (VString "status") _ Hscalar) as (H & _).
  exact H.
Defined.

(** C9, a submit after "b" was chosen. *)
Lemma C9_witness :
  snd (handle statusContext
         (fst (handle statusContext
                 {| state_values := initialValues statusContext;
                    state_errors := [] |}
                 (Change (FString "b"))))
         Submit)
  = [SetFilterValue (FString "b"); SetOpen false].
Proof.
  destruct (C9_submit_and_reset statusContext
              (fst (handle statusContext
                      {| state_values := initialValues statusContext;
                         state_errors := [] |}
                      (Change (FString "b"))))
              {| columnDef :=
                   Some {| columnDef_id := VString "status";
                           filterFn := VString "select";
                           meta := Some {| filterOptions :=
                                             Some [VString "b"; VString "a";
                                                   VString "b"] |} |} |}
              eq_refl eq_refl) as (_ & Hsubmit & _).
  exact (Hsubmit (FString "b") (fun _ => eq_refl)
                 (fun Hne => False_ind _ (Hne eq_refl))).
Defined.

End ClaimExamples.

(** * Further properties of the select filter *)
Section OrderFacts.
Context {collator : Collator} {engine : SortEngine}.
Local Open Scope list_scope.
Local Open Scope Z_scope.
Import ArrayFacts ListFacts SortFacts ValueFacts NumberFacts.

Lemma sanitized_same_members raw1 raw2 :
  (forall v, ToBoolean v = true -> (In v raw1 <-> In v raw2)) ->
  forall v, In v (sanitized raw1) <-> In v (sanitized raw2).
Proof.
  intros Hsame v. rewrite !sanitized_In. split; intros [Hin Ht];
    (split; [now apply (Hsame v Ht) | assumption]).
Qed.

(** X1.  For a column of numbers the Options depend only on which truthy
    values occur: two inputs with the same truthy values, in any order
    and with any repeats, give the same Option list. *)
Theorem X1_numbers_order_independent (columnId : value) (raw1 raw2 : list value)
  (Hwf1 : Forall (fun v => well_formed v = true) raw1)
  (Hwf2 : Forall (fun v => well_formed v = true) raw2)
  (Hnum1 : Forall (fun v => isNumber v = true) raw1)
  (Hnum2 : Forall (fun v => isNumber v = true) raw2)
  (Hsame : forall v, ToBoolean v = true -> (In v raw1 <-> In v raw2)) :
  derive columnId raw1 = derive columnId raw2.
Proof.
  unfold derive. rewrite !sanitizeRowValues_Some. simpl optionsOf. f_equal.
  apply (StronglySorted_unique ascending).
  - intros x y Hx Hy Hxy Hyx.
    pose proof (sanitized_all well_formed raw1 Hwf1) as Hw.
    pose proof (sanitized_all isNumber raw1 Hnum1) as Hn.
    pose proof (sanitized_truthy raw1) as Ht.
    rewrite Forall_forall in Hw, Hn, Ht.
    pose proof (Hw x Hx) as Wx. pose proof (Hw y Hy) as Wy.
    pose proof (Hn x Hx) as Nx. pose proof (Hn y Hy) as Ny.
    pose proof (Ht y Hy) as Ty.
    destruct x as [| |bx|a|sx], y as [| |by'|b|sy]; try discriminate.
    f_equal. apply le_antisym; try assumption.
    simpl in Ty. now apply negb_true_iff in Ty.
  - now apply sanitized_sorted_numbers.
  - now apply sanitized_sorted_numbers.
  - apply sanitized_NoDup.
  - apply sanitized_NoDup.
  - now apply sanitized_same_members.
Qed.

(** X2.  For a column of strings, in a locale whose comparison answers
    zero for equal strings only, the Options depend only on which
    non-empty strings occur, not on their order or repeats. *)
Theorem X2_strings_order_independent (columnId : value) (strs1 strs2 : list string)
  (Hseparates : forall a b, localeCompare a b = 0 -> a = b)
  (Hsame : forall s, s <> "" -> (In s strs1 <-> In s strs2)) :
  derive columnId (map VString strs1) = derive columnId (map VString strs2).
Proof.
  unfold derive. rewrite !sanitizeRowValues_Some. simpl optionsOf. f_equal.
  apply (StronglySorted_unique ascending).
  - intros x y Hx Hy Hxy Hyx.
    pose proof (sanitized_all isString _ (strings_isString strs1)) as Hs.
    rewrite Forall_forall in Hs.
    pose proof (Hs x Hx) as Sx. pose proof (Hs y Hy) as Sy.
    destruct x as [| |bx|a|sx], y as [| |by'|b|sy]; try discriminate.
    simpl in Hxy, Hyx. f_equal. apply Hseparates.
    pose proof (localeCompare_antisym sx sy). lia.
  - apply sanitized_sorted_strings.
  - apply sanitized_sorted_strings.
  - apply sanitized_NoDup.
  - apply sanitized_NoDup.
  - apply sanitized_same_members. intros v Hv.
    rewrite !in_map_iff. split; intros (s & <- & Hin); exists s;
      (split; [reflexivity|]); apply (Hsame s); try assumption;
      simpl in Hv; apply negb_true_iff, String.eqb_neq in Hv; assumption.
Qed.

End OrderFacts.

Section DerivationFacts.
Context {collator : Collator} {engine : SortEngine}.
Local Open Scope list_scope.
Local Open Scope Z_scope.
Import ArrayFacts ListFacts SortFacts ValueFacts NumberFacts.

(** Only the members of [seen] count. *)
Lemma firstOccurrences_members seen seen' rest :
  Forall (fun v => ToBoolean v = true) rest ->
  (forall x, In x seen <-> In x seen') ->
  firstOccurrences seen rest = firstOccurrences seen' rest.
Proof.
  revert seen seen'. induction rest as [|y rest IH]; intros seen seen' Ht Hs;
    [reflexivity|].
  inversion Ht as [|? ? Hy Ht']; subst. simpl.
  assert (Hnext : firstOccurrences (seen ++ [y]) rest
                  = firstOccurrences (seen' ++ [y]) rest).
  { apply IH; [assumption|]. intros x. rewrite !in_app_iff, Hs. reflexivity. }
  assert (Hb : existsb (fun p => IsStrictlyEqual p y) seen
               = existsb (fun p => IsStrictlyEqual p y) seen').
  { apply eq_true_iff_eq. now rewrite !(seen_In _ y Hy). }
  now rewrite Hb, Hnext.
Qed.

(** A value met before leaves no trace. *)
Lemma firstOccurrences_skip seen front v back :
  Forall (fun x => ToBoolean x = true) (front ++ v :: back) ->
  In v (seen ++ front) ->
  firstOccurrences seen (front ++ v :: back)
  = firstOccurrences seen (front ++ back).
Proof.
  revert seen. induction front as [|y front IH]; intros seen Ht Hin; simpl in *.
  - rewrite app_nil_r in Hin. inversion Ht as [|? ? Hv Ht']; subst.
    rewrite (proj2 (seen_In seen v Hv) Hin).
    apply firstOccurrences_members; [assumption|].
    intros x. rewrite in_app_iff. split; [intros [H|[<-|[]]]; assumption | auto].
  - inversion Ht as [|? ? Hy Ht']; subst.
    assert (Hnext : firstOccurrences (seen ++ [y]) (front ++ v :: back)
                    = firstOccurrences (seen ++ [y]) (front ++ back)).
    { apply IH; [assumption|]. rewrite <- app_assoc. exact Hin. }
    now rewrite Hnext.
Qed.

(** X3.  A falsy value anywhere in the input, and a value that already
    occurs further left, change nothing: the Options are those of the
    input without it. *)
Theorem X3_falsy_and_repeated_values_ignored
  (columnId : value) (front back : list value) (v : value)
  (Hignored : ToBoolean v = false \/ In v front) :
  derive columnId (front ++ v :: back) = derive columnId (front ++ back).
Proof.
  unfold derive. rewrite !sanitizeRowValues_Some. simpl optionsOf. f_equal.
  unfold sanitized. f_equal.
  destruct (ToBoolean v) eqn:Hv.
  - destruct Hignored as [Hf|Hin]; [discriminate|].
    rewrite !dropRepeats_firstOccurrences by apply dropFalsy_truthy.
    rewrite !dropFalsy_filter, !filter_app. simpl. rewrite Hv.
    apply firstOccurrences_skip.
    + apply Forall_app. split; [|constructor; [assumption|]];
        rewrite <- dropFalsy_filter; apply dropFalsy_truthy.
    + simpl. apply filter_In. now split.
  - f_equal. rewrite !dropFalsy_filter, !filter_app. simpl. now rewrite Hv.
Qed.

(** X7.  For a column of strings the Option values are exactly the
    non-empty strings of the input, each one once. *)
Theorem X7_string_column_values (columnId : value) (strs : list string) :
  NoDup (map value_ (derive columnId (map VString strs)))
  /\ (forall s, In s (map value_ (derive columnId (map VString strs)))
                <-> In s strs /\ s <> "").
Proof.
  rewrite derive_values. split.
  - apply (NoDup_map_inv VString). rewrite map_map.
    rewrite strings_unchanged by apply sanitized_all, strings_isString.
    apply sanitized_NoDup.
  - intros s. rewrite in_map_iff. split.
    + intros (v & <- & Hv). apply sanitized_In in Hv as [Hin Ht].
      apply in_map_iff in Hin as (s & <- & Hs). split; [assumption|].
      simpl in Ht. now apply negb_true_iff, String.eqb_neq in Ht.
    + intros [Hin Hne]. exists (VString s). split; [reflexivity|].
      apply sanitized_In. split; [now apply in_map|].
      simpl. now apply negb_true_iff, String.eqb_neq.
Qed.

(** X8.  Swapping the two arguments of the comparator reverses its sign,
    for values of one type and of different types alike. *)
Theorem X8_comparator_antisymmetric (a b : value)
  (Ha : well_formed a = true) (Hb : well_formed b = true) :
  sgn (compareFn b a) = CompOpp (sgn (compareFn a b)).
Proof.
  destruct a as [| |ba|x|sa], b as [| |bb|y|sb]; try reflexivity.
  - rewrite !compareFn_numbers. simpl in Ha, Hb.
    destruct (is_nan x) eqn:Nx; [destruct x; try discriminate; destruct y; reflexivity|].
    destruct (is_nan y) eqn:Ny; [destruct y; try discriminate; destruct x; reflexivity|].
    destruct (compare_defined x y Nx Ny) as [c Hc].
    rewrite (sub_sgn_compare x y c Ha Hb Hc).
    apply sub_sgn_compare; try assumption. now apply compare_antisym.
  - rewrite !compareFn_strings, !of_Z_sgn.
    pose proof (localeCompare_antisym sa sb) as Hanti.
    destruct (Z.compare_spec (localeCompare sa sb) 0);
      destruct (Z.compare_spec (localeCompare sb sa) 0); simpl; try reflexivity; lia.
Qed.

Lemma append_inj_l (p a b : string) : (p ++ a)%string = (p ++ b)%string -> a = b.
Proof.
  induction p as [|c p IH]; simpl; intros H; [assumption|].
  inversion H. now apply IH.
Qed.

Lemma dec_inj z1 z2 : 0 <= z1 -> 0 <= z2 -> dec z1 = dec z2 -> z1 = z2.
Proof.
  intros H1 H2 H. unfold dec in H.
  assert (Hnn : forall n, N.to_uint n <> Decimal.Nil).
  { intros [|p]; [discriminate | apply DecimalPos.Unsigned.to_uint_nonnil]. }
  apply (f_equal NilZero.uint_of_string) in H.
  rewrite !NilZero.usu in H by apply Hnn.
  inversion H as [Hu]. apply DecimalN.Unsigned.to_uint_inj in Hu. lia.
Qed.

Lemma derive_ids columnId (vs : list value) :
  forall index,
    map id (map_from (toOption columnId) index vs)
    = map (fun n => (ToString columnId ++ "-choice-"
                     ++ ToString (VNumber (of_nat n)))%string)
          (seq index (List.length vs)).
Proof.
  induction vs as [|v vs IH]; intros index; simpl; [reflexivity|].
  now rewrite IH.
Qed.

(** X9.  The identifiers of the Options are pairwise distinct, for an
    input of at most a thousand raw values. *)
Theorem X9_option_ids_distinct (columnId : value) (raw : list value)
  (Hsize : (List.length raw <= 1000)%nat) :
  NoDup (map id (derive columnId raw)).
Proof.
  pose proof (derive_length columnId raw) as Hlen.
  assert (Hle : (List.length (sanitized raw) <= 1000)%nat).
  { apply Nat.le_trans with (List.length raw); [|assumption].
    apply NoDup_incl_length; [apply sanitized_NoDup|].
    intros v Hv. now apply sanitized_In in Hv. }
  unfold derive. rewrite sanitizeRowValues_Some. simpl optionsOf.
  unfold Array_map. rewrite derive_ids.
  apply NoDup_map_NoDup_ForallPairs; [|apply seq_NoDup].
  intros n m Hn Hm Heq. apply in_seq in Hn, Hm.
  apply append_inj_l, append_inj_l in Heq.
  pose proof index_texts as Ht. rewrite forallb_forall in Ht.
  assert (Hdn : ToString (VNumber (of_nat n)) = dec (Z.of_nat n))
    by (apply String.eqb_eq, Ht, in_seq; lia).
  assert (Hdm : ToString (VNumber (of_nat m)) = dec (Z.of_nat m))
    by (apply String.eqb_eq, Ht, in_seq; lia).
  rewrite Hdn, Hdm in Heq. apply dec_inj in Heq; lia.
Qed.

End DerivationFacts.

Section ComponentFacts.
Context {collator : Collator} {engine : SortEngine}.
Local Open Scope list_scope.
Local Open Scope Z_scope.
Import ArrayFacts ListFacts SortFacts ValueFacts NumberFacts.

Lemma map_from_plain {A B} (f : A -> B) (vs : list A) :
  forall index, map_from (fun item _ => f item) index vs = map f vs.
Proof.
  induction vs as [|v vs IH]; intros index; simpl; [reflexivity|].
  now rewrite IH.
Qed.

Lemma rowValues_internal ctx :
  externalRowValues ctx = None \/ externalRowValues ctx = Some [] ->
  rowValues ctx = sanitizeRowValues (Some (internalRowValues ctx)).
Proof.
  unfold rowValues. intros [H|H]; rewrite H; reflexivity.
Qed.

(** X4.  Without [filterOptions], or with an empty one, the Options are
    derived from the cells of the rows under the column id; there are
    none when the rows are missing or empty or when the column id is not
    a string. *)
Theorem X4_rows_are_the_fallback (ctx : TableFilterContext)
  (Hext : externalRowValues ctx = None \/ externalRowValues ctx = Some []) :
  (forall columnId rs,
     column_id ctx = VString columnId -> rows ctx = Some rs ->
     TableSelectFilter_options ctx
     = derive (VString columnId) (map (fun r => row_getValue r columnId) rs))
  /\ (rows ctx = None \/ rows ctx = Some [] \/ isString (column_id ctx) = false ->
      TableSelectFilter_options ctx = []).
Proof.
  unfold TableSelectFilter_options. rewrite (rowValues_internal ctx Hext).
  unfold internalRowValues. split.
  - intros columnId rs Hid Hrows. rewrite Hid, Hrows.
    destruct rs as [|r rs]; [reflexivity|].
    change (Nat.eqb (List.length (r :: rs)) 0) with false. cbv iota.
    unfold Array_map. now rewrite map_from_plain.
  - intros [Hrows|[Hrows|Hid]].
    + rewrite Hrows. exact (derive_nil _).
    + rewrite Hrows. destruct (column_id ctx); exact (derive_nil _).
    + destruct (rows ctx) as [rs|]; [|exact (derive_nil _)].
      destruct (column_id ctx); try exact (derive_nil _). discriminate Hid.
Qed.

(** X5.  A non-empty [filterOptions] that holds falsy entries only gives
    no Options at all: the rows are not consulted as a fallback. *)
Theorem X5_blank_filterOptions_hide_rows
  (ctx : TableFilterContext) (ext : list value)
  (Hext : externalRowValues ctx = Some ext) (Hne : ext <> [])
  (Hblank : Forall (fun v => ToBoolean v = false) ext) :
  TableSelectFilter_options ctx = [].
Proof.
  unfold TableSelectFilter_options.
  rewrite (rowValues_external ctx ext Hext Hne), sanitizeRowValues_Some.
  assert (Hnone : dropFalsy ext = []).
  { rewrite dropFalsy_filter. clear Hext Hne.
    induction Hblank as [|v l Hv _ IH]; simpl; [reflexivity | now rewrite Hv]. }
  unfold sanitized, Array_sort. rewrite Hnone.
  change (dropRepeats []) with (@nil value). now rewrite sort_by_nil.
Qed.

(** X6.  A choice made in the group is what the next submit hands to the
    sink: the chosen item when it has a length, the empty string
    otherwise.  The choice is stored in the field of the current mode
    and the other field keeps its value. *)
Theorem X6_choice_reaches_the_sink
  (ctx : TableFilterContext) (values : FormValues) (item : TChoiceGroupValue)
  (c : Column) (Hcolumn : column ctx = Some c) (Hopen : setOpen ctx = true) :
  onSubmit ctx (onSelectChange ctx values item)
  = [SetFilterValue (if hasLength item then item else FString "");
     SetOpen false]
  /\ field (onSelectChange ctx values item) (fieldName ctx) = item
  /\ (forall other, other <> fieldName ctx ->
        field (onSelectChange ctx values item) other = field values other).
Proof.
  assert (Hfield : field (onSelectChange ctx values item) (fieldName ctx) = item).
  { unfold onSelectChange. destruct (fieldName ctx); reflexivity. }
  split; [|split].
  - unfold onSubmit, column_setFilterValue, call_setOpen.
    now rewrite Hcolumn, Hopen, Hfield.
  - exact Hfield.
  - intros other Hother. unfold onSelectChange.
    destruct (fieldName ctx), other; try reflexivity; contradiction.
Qed.

(** X10.  The field name and the kind of input always agree: a filter
    function strictly equal to 'select' gives the field [selectFilter]
    with radio inputs, anything else, a missing one included, gives
    [multiSelectFilter] with checkboxes. *)
Theorem X10_selection_mode (ctx : TableFilterContext) :
  (inputType ctx = VString "select"
   /\ fieldName ctx = selectFilter /\ choiceGroup_inputType ctx = "radio")
  \/ (inputType ctx <> VString "select"
      /\ fieldName ctx = multiSelectFilter
      /\ choiceGroup_inputType ctx = "checkbox").
Proof.
  unfold fieldName, choiceGroup_inputType.
  destruct (IsStrictlyEqual (inputType ctx) (VString "select")) eqn:Heq.
  - left. split; [|split; reflexivity]. now apply strict_eq_eq in Heq.
  - right. split; [|split; reflexivity]. intros H. rewrite H in Heq.
    discriminate Heq.
Qed.

(** X11.  The text field renders exactly one element and never null: a
    textarea when [isTextArea] is true, an input when it is false or
    missing, each carrying [isInvalid] as its aria-invalid. *)
Theorem X11_text_field_element
  (FormHelperProps : Type) (type : FormHelperProps -> option string)
  (isTextArea invalid : option bool) (helper : option FormHelperProps) :
  TextFieldElement.renderInputElement FormHelperProps type isTextArea invalid helper
  <> TextFieldElement.Null
  /\ TextFieldElement.isInputRef isTextArea
     = negb (TextFieldElement.isTextAreaRef isTextArea)
  /\ (isTextArea = Some true ->
      TextFieldElement.renderInputElement FormHelperProps type isTextArea invalid helper
      = TextFieldElement.Textarea
          (TextField.isInvalid FormHelperProps type invalid helper))
  /\ (isTextArea <> Some true ->
      TextFieldElement.renderInputElement FormHelperProps type isTextArea invalid helper
      = TextFieldElement.Input
          (TextField.isInvalid FormHelperProps type invalid helper)).
Proof.
  unfold TextFieldElement.renderInputElement.
  destruct isTextArea as [[]|]; simpl; repeat split;
    try discriminate; try reflexivity; intros H; congruence.
Qed.

(** X12.  The helper handed to the choice group has type 'error' unless
    the field's error has length zero; in particular it has type 'error',
    with no text, when the form holds no error for the field. *)
Theorem X12_helper_without_error (e : FieldError) :
  (helper_type (choiceGroup_helper e) = Some "error"
   <-> e <> ErrorText "" /\ e <> ErrorList [])
  /\ (helper_type (choiceGroup_helper e) = Some "error" ->
      helper_text (choiceGroup_helper e) = e)
  /\ (helper_type (choiceGroup_helper e) <> Some "error" ->
      choiceGroup_helper e
      = {| helper_text := ErrorText ""; helper_type := None |})
  /\ choiceGroup_helper NoError
     = {| helper_text := NoError; helper_type := Some "error" |}.
Proof.
  unfold choiceGroup_helper.
  destruct e as [|[|ch s]|[|x items]]; simpl; repeat split;
    try discriminate; try reflexivity; try congruence;
    intros H; try discriminate H; try (destruct H; congruence).
Qed.

End ComponentFacts.

(** Examples of the further properties, in the code-unit collation and
    on the reference engine. *)
Section FurtherExamples.
#[local] Existing Instance SortFacts.insertionEngine.

(** X1, on [3, 1, 3, 0] against [1, 3]. *)
Lemma X1_witness :
  derive (VString "size")
         [VNumber (of_Z 3); VNumber (of_Z 1); VNumber (of_Z 3); VNumber (of_Z 0)]
  = derive (VString "size") [VNumber (of_Z 1); VNumber (of_Z 3)].
Proof.
  apply X1_numbers_order_independent.
  - repeat constructor.
  - repeat constructor.
  - repeat constructor.
  - repeat constructor.
  - intros v Hv. split.
    + intros [<-|[<-|[<-|[<-|[]]]]]; simpl; auto; discriminate Hv.
    + intros [<-|[<-|[]]]; simpl; auto.
Defined.

Lemma codeUnitCompare_separates a b : codeUnitCompare a b = 0 -> a = b.
Proof.
  unfold codeUnitCompare.
  destruct (OrdersEx.String_as_OT.compare_spec a b) as [H|H|H];
    [intros _; exact H | discriminate | discriminate].
Qed.

(** X2, in the code-unit collation. *)
Lemma X2_witness :
  derive (VString "fruit") (map VString ["pear"; ""; "apple"; "pear"])
  = derive (VString "fruit") (map VString ["apple"; "pear"]).
Proof.
  apply X2_strings_order_independent.
  - exact codeUnitCompare_separates.
  - intros s Hs. split.
    + intros [<-|[<-|[<-|[<-|[]]]]]; simpl; auto; contradiction.
    + intros [<-|[<-|[]]]; simpl; auto.
Defined.

(** X3, a repeated 2 between "a" and 1. *)
Lemma X3_witness :
  derive (VString "size")
         ([VNumber (of_Z 2); VString "a"] ++ VNumber (of_Z 2) :: [VNumber (of_Z 1)])
  = derive (VString "size") ([VNumber (of_Z 2); VString "a"] ++ [VNumber (of_Z 1)]).
Proof.
  apply X3_falsy_and_repeated_values_ignored.
  right. left. reflexivity.
Defined.

(** X4, on the size column. *)
Lemma X4_witness :
  TableSelectFilter_options sizesContext
  = derive (VString "size")
           [VNumber (of_Z 3); VString ""; VNumber (of_Z 1); VNumber (of_Z 3)].
Proof.
  apply (proj1 (X4_rows_are_the_fallback sizesContext (or_introl eq_refl))
               "size"
               [sizeRow (VNumber (of_Z 3)); sizeRow (VString "");
                sizeRow (VNumber (of_Z 1)); sizeRow (VNumber (of_Z 3))]);
    reflexivity.
Defined.

(** X5, on the column whose options are empty strings. *)
Lemma X5_witness : TableSelectFilter_options blankOptionsContext = [].
Proof.
  apply (X5_blank_filterOptions_hide_rows blankOptionsContext
           [VString ""; VString ""]).
  - reflexivity.
  - discriminate.
  - repeat constructor.
Defined.

(** X6, choosing "b" in the status column. *)
Lemma X6_witness :
  onSubmit statusContext
           (onSelectChange statusContext (initialValues statusContext) (FString "b"))
  = [SetFilterValue (FString "b"); SetOpen false].
Proof.
  apply (X6_choice_reaches_the_sink
           statusContext (initialValues statusContext) (FString "b")
           {| columnDef :=
                Some {| columnDef_id := VString "status";
                        filterFn := VString "select";
                        meta := Some {| filterOptions :=
                                          Some [VString "b"; VString "a";
                                                VString "b"] |} |} |});
    reflexivity.
Defined.

(** X8, on 2 and 1. *)
Lemma X8_witness :
  sgn (compareFn (VNumber (of_Z 1)) (VNumber (of_Z 2)))
  = CompOpp (sgn (compareFn (VNumber (of_Z 2)) (VNumber (of_Z 1)))).
Proof.
  apply X8_comparator_antisymmetric; reflexivity.
Defined.

(** X9, on [3, 1, 2]. *)
Lemma X9_witness :
  NoDup (map id (derive (VString "size")
                        [VNumber (of_Z 3); VNumber (of_Z 1); VNumber (of_Z 2)])).
Proof.
  apply X9_option_ids_distinct. simpl. lia.
Defined.

End FurtherExamples.
